(** * The mixture-of-logistics loss of the WaveRNN pipeline

    A shallow embedding of [examples/pipeline_wavernn/loss_mol.py]
    ([log_sum_exp], [LossFn_Mol]) and of the mode dispatch of the training
    and evaluation loops of [examples/pipeline_wavernn/wavernn.py].

    Tensor elements are real numbers: rounding, overflow and the IEEE
    special values are outside this model.  A tensor is its size and its
    row-major storage.  Python exceptions are an error monad. *)

From Stdlib Require Import String Reals Lra Lia ZArith Bool Arith List.
Import ListNotations.
Open Scope R_scope.

(** ** Python exceptions *)

Module Py.

Inductive exn : Type :=
| AssertionError
| RuntimeError
| IndexError
| ZeroDivisionError
| ValueError (msg : string).

Inductive result (A : Type) : Type :=
| Ok (a : A)
| Raise (e : exn).

Arguments Ok {A} a.
Arguments Raise {A} e.

Definition bind {A B : Type} (m : result A) (k : A -> result B) : result B :=
  match m with
  | Ok a => k a
  | Raise e => Raise e
  end.

(** [assert b]. *)
Definition assert (b : bool) : result unit :=
  if b then Ok tt else Raise AssertionError.

End Py.

Import Py.

Notation "x <- m ;; k" := (bind m (fun x => k))
  (at level 61, m at next level, right associativity).
Notation "m ;;; k" := (bind m (fun _ => k))
  (at level 61, right associativity).

(** ** Tensors *)

Module Torch.

Record tensor : Type := mkTensor { size : list nat; data : list R }.

(** [x.dim()] *)
Definition dim (t : tensor) : nat := length (size t).

Fixpoint numel (s : list nat) : nat :=
  match s with
  | [] => 1%nat
  | n :: s' => (n * numel s')%nat
  end.

(** The storage holds one element per index. *)
Definition wf (t : tensor) : Prop := length (data t) = numel (size t).

(** [x.size(-1)]; a 0-dim tensor is reduced as a single row of one element. *)
Definition last_dim (s : list nat) : nat := last s 1%nat.

(** The size without its last axis, and with the last axis kept as 1. *)
Definition front (s : list nat) : list nat := removelast s.

Definition keep (s : list nat) : list nat :=
  match s with
  | [] => []
  | _ => front s ++ [1%nat]
  end.

(** [n] consecutive blocks of [c] elements of the storage. *)
Fixpoint chunks (c n : nat) (l : list R) : list (list R) :=
  match n with
  | O => []
  | S n' => firstn c l :: chunks c n' (skipn c l)
  end.

(** The rows along the last axis. *)
Definition rows (t : tensor) : list (list R) :=
  chunks (last_dim (size t)) (numel (front (size t))) (data t).

Fixpoint zipWith (f : R -> R -> R) (a b : list R) : list R :=
  match a, b with
  | x :: a', y :: b' => f x y :: zipWith f a' b'
  | _, _ => []
  end.

(** Equality of sizes. *)
Fixpoint shape_eqb (a b : list nat) : bool :=
  match a, b with
  | [], [] => true
  | m :: a', n :: b' => (m =? n)%nat && shape_eqb a' b'
  | _, _ => false
  end.

(** *** Broadcasting *)

Definition pad_shape (r : nat) (s : list nat) : list nat :=
  repeat 1%nat (r - length s) ++ s.

(** Each axis of [ys] is the target's or 1. *)
Fixpoint expandable (ys ts : list nat) : bool :=
  match ys, ts with
  | [], [] => true
  | m :: ys', n :: ts' => ((m =? n)%nat || (m =? 1)%nat) && expandable ys' ts'
  | _, _ => false
  end.

(** The storage of a tensor of size [ys] expanded to size [ts]: an axis of
    size 1 is replicated. *)
Fixpoint expand_data (ys ts : list nat) (d : list R) : list R :=
  match ys, ts with
  | m :: ys', n :: ts' =>
      let sub := map (expand_data ys' ts') (chunks (numel ys') m d) in
      if (m =? n)%nat then concat sub else concat (repeat (concat sub) n)
  | _, _ => d
  end.

(** [t.expand(ts)] *)
Definition expand (t : tensor) (ts : list nat) : result tensor :=
  if shape_eqb (size t) ts then Ok t
  else if (length ts <? length (size t))%nat then Raise RuntimeError
  else
    let ys := pad_shape (length ts) (size t) in
    if expandable ys ts
    then Ok (mkTensor ts (expand_data ys ts (data t)))
    else Raise RuntimeError.

(** [y.expand_as(other)] *)
Definition expand_as (t other : tensor) : result tensor :=
  expand t (size other).

(** The common size two sizes broadcast to. *)
Fixpoint broadcast_aligned (sa sb : list nat) : option (list nat) :=
  match sa, sb with
  | [], [] => Some []
  | m :: sa', n :: sb' =>
      match broadcast_aligned sa' sb' with
      | Some s =>
          if (m =? n)%nat then Some (m :: s)
          else if (m =? 1)%nat then Some (n :: s)
          else if (n =? 1)%nat then Some (m :: s)
          else None
      | None => None
      end
  | _, _ => None
  end.

Definition broadcast_shapes (sa sb : list nat) : option (list nat) :=
  let r := Nat.max (length sa) (length sb) in
  broadcast_aligned (pad_shape r sa) (pad_shape r sb).

(** *** Elementwise operations *)

Definition tmap (f : R -> R) (t : tensor) : tensor :=
  mkTensor (size t) (map f (data t)).

(** A binary operation of two tensors, with broadcasting. *)
Definition tbin (f : R -> R -> R) (a b : tensor) : result tensor :=
  if shape_eqb (size a) (size b)
  then Ok (mkTensor (size a) (zipWith f (data a) (data b)))
  else
    match broadcast_shapes (size a) (size b) with
    | Some s =>
        a' <- expand a s ;;
        b' <- expand b s ;;
        Ok (mkTensor s (zipWith f (data a') (data b')))
    | None => Raise RuntimeError
    end.

Definition add := tbin Rplus.
Definition sub := tbin Rminus.
Definition mul := tbin Rmult.

(** [-x] *)
Definition neg : tensor -> tensor := tmap Ropp.

(** [torch.exp], [torch.log] *)
Definition texp : tensor -> tensor := tmap exp.
Definition tlog : tensor -> tensor := tmap ln.

(** [torch.sigmoid]: 1 / (1 + exp(-x)) *)
Definition sigmoid (x : R) : R := 1 / (1 + exp (- x)).

(** [F.softplus] with its defaults (beta = 1, threshold = 20):
    log(1 + exp(x)), and x itself above the threshold. *)
Definition softplus (x : R) : R :=
  if Rlt_dec 20 x then x else ln (1 + exp x).

(** [torch.clamp(x, min=lo)] *)
Definition clamp_min (lo : R) : tensor -> tensor := tmap (fun v => Rmax v lo).

(** [(x > c).float()] and [(x < c).float()] *)
Definition indicator_gt (c x : R) : R := if Rlt_dec c x then 1 else 0.
Definition indicator_lt (c x : R) : R := if Rlt_dec x c then 1 else 0.

Definition gt_float (c : R) : tensor -> tensor := tmap (indicator_gt c).
Definition lt_float (c : R) : tensor -> tensor := tmap (indicator_lt c).

(** *** Operations along the last axis *)

(** [x[..., lo:hi]], the bounds clipped to the axis as Python slices are. *)
Definition slice_last (lo hi : nat) (t : tensor) : tensor :=
  let c := last_dim (size t) in
  let lo' := Nat.min lo c in
  let hi' := Nat.max lo' (Nat.min hi c) in
  mkTensor (front (size t) ++ [(hi' - lo')%nat])
           (concat (map (fun r => firstn (hi' - lo') (skipn lo' r)) (rows t))).

Fixpoint Rmaximum (x : R) (l : list R) : R :=
  match l with
  | [] => x
  | y :: l' => Rmax x (Rmaximum y l')
  end.

Definition row_max (r : list R) : R :=
  match r with
  | [] => 0
  | x :: r' => Rmaximum x r'
  end.

Definition row_sum (r : list R) : R := fold_right Rplus 0 r.

(** The values of [torch.max(x, dim=last, keepdim=...)]; an empty reduction
    axis is refused. *)
Definition max_last (keepdim : bool) (t : tensor) : result tensor :=
  if (last_dim (size t) =? 0)%nat then Raise IndexError
  else Ok (mkTensor (if keepdim then keep (size t) else front (size t))
                    (map row_max (rows t))).

(** [torch.sum(x, dim=last)] *)
Definition sum_last (t : tensor) : tensor :=
  mkTensor (front (size t)) (map row_sum (rows t)).

(** [F.log_softmax(x, -1)]: x_i - log(sum_j exp(x_j)) on each row. *)
Definition row_log_softmax (r : list R) : list R :=
  map (fun v => v - ln (row_sum (map exp r))) r.

Definition log_softmax (t : tensor) : tensor :=
  mkTensor (size t) (concat (map row_log_softmax (rows t))).

(** [torch.mean(x)]: a 0-dim tensor. *)
Definition mean (t : tensor) : tensor :=
  mkTensor [] [row_sum (data t) / INR (numel (size t))].

(** [x.unsqueeze(-1)] and [x.squeeze(-1)] *)
Definition unsqueeze_last (t : tensor) : tensor :=
  mkTensor (size t ++ [1%nat]) (data t).

Definition squeeze_last (t : tensor) : tensor :=
  match size t with
  | [] => t
  | _ => if (last_dim (size t) =? 1)%nat
         then mkTensor (front (size t)) (data t) else t
  end.

End Torch.

Import Torch.

(** ** loss_mol.py *)

(** [log_sum_exp(x)]; [axis] is the last axis. *)
Definition log_sum_exp (x : tensor) : result tensor :=
  m <- max_last false x ;;
  m2 <- max_last true x ;;
  d <- sub x m2 ;;
  add m (tlog (sum_last (texp d))).

(** The literals of [LossFn_Mol]. *)
Definition min_value : R := -32.23619130191664.
Definition tmp : R := 10.397192449493701.

(** [1. / (num_classes - 1)] *)
Definition half_bin (num_classes : Z) : result R :=
  if (num_classes - 1 =? 0)%Z then Raise ZeroDivisionError
  else Ok (1 / IZR (num_classes - 1)).

(** The local variables of [LossFn_Mol] once line 73 is reached
    ([y_expanded] is [y] after line 39). *)
Record locals : Type := mkLocals {
  logit_probs : tensor;
  means : tensor;
  log_scales : tensor;
  y_expanded : tensor;
  centered_y : tensor;
  inv_stdv : tensor;
  plus_in : tensor;
  cdf_plus : tensor;
  min_in : tensor;
  cdf_min : tensor;
  log_cdf_plus : tensor;
  log_one_minus_cdf_min : tensor;
  cdf_delta : tensor;
  mid_in : tensor;
  log_pdf_mid : tensor;
  inner_inner_cond : tensor;
  inner_inner_out : tensor;
  inner_cond : tensor;
  inner_out : tensor;
  cond : tensor;
  log_probs : tensor
}.

(** Lines 24 to 73 of [LossFn_Mol]. *)
Definition LossFn_Mol_locals (y_hat y : tensor) (num_classes : Z)
    (log_scale_min : option R) : result locals :=
  let log_scale_min :=
    match log_scale_min with None => min_value | Some v => v end in
  assert (dim y_hat =? 3)%nat ;;;
  assert (last_dim (size y_hat) mod 3 =? 0)%nat ;;;
  let nr_mix := (last_dim (size y_hat) / 3)%nat in
  let logit_probs := slice_last 0 nr_mix y_hat in
  let means := slice_last nr_mix (2 * nr_mix) y_hat in
  let log_scales :=
    clamp_min log_scale_min (slice_last (2 * nr_mix) (3 * nr_mix) y_hat) in
  y <- expand_as y means ;;
  centered_y <- sub y means ;;
  let inv_stdv := texp (neg log_scales) in
  h <- half_bin num_classes ;;
  plus_in <- mul inv_stdv (tmap (fun v => v + h) centered_y) ;;
  let cdf_plus := tmap sigmoid plus_in in
  h' <- half_bin num_classes ;;
  min_in <- mul inv_stdv (tmap (fun v => v - h') centered_y) ;;
  let cdf_min := tmap sigmoid min_in in
  log_cdf_plus <- sub plus_in (tmap softplus plus_in) ;;
  let log_one_minus_cdf_min := neg (tmap softplus min_in) in
  cdf_delta <- sub cdf_plus cdf_min ;;
  mid_in <- mul inv_stdv centered_y ;;
  t1 <- sub mid_in log_scales ;;
  log_pdf_mid <- sub t1 (tmap (fun v => 2 * v) (tmap softplus mid_in)) ;;
  let inner_inner_cond := gt_float 1e-5 cdf_delta in
  a1 <- mul inner_inner_cond (tlog (clamp_min 1e-12 cdf_delta)) ;;
  a2 <- mul (tmap (fun v => 1 - v) inner_inner_cond)
            (tmap (fun v => v - tmp) log_pdf_mid) ;;
  inner_inner_out <- add a1 a2 ;;
  let inner_cond := gt_float 0.999 y in
  b1 <- mul inner_cond log_one_minus_cdf_min ;;
  b2 <- mul (tmap (fun v => 1 - v) inner_cond) inner_inner_out ;;
  inner_out <- add b1 b2 ;;
  let cond := lt_float (-0.999) y in
  c1 <- mul cond log_cdf_plus ;;
  c2 <- mul (tmap (fun v => 1 - v) cond) inner_out ;;
  log_probs <- add c1 c2 ;;
  Ok (mkLocals logit_probs means log_scales y centered_y inv_stdv plus_in
               cdf_plus min_in cdf_min log_cdf_plus log_one_minus_cdf_min
               cdf_delta mid_in log_pdf_mid inner_inner_cond inner_inner_out
               inner_cond inner_out cond log_probs).

(** [LossFn_Mol(y_hat, y, num_classes, log_scale_min, reduce)] *)
Definition LossFn_Mol (y_hat y : tensor) (num_classes : Z)
    (log_scale_min : option R) (reduce : bool) : result tensor :=
  L <- LossFn_Mol_locals y_hat y num_classes log_scale_min ;;
  log_probs <- add (log_probs L) (log_softmax (logit_probs L)) ;;
  if reduce then
    l <- log_sum_exp log_probs ;;
    Ok (neg (mean l))
  else
    l <- log_sum_exp log_probs ;;
    Ok (neg (unsqueeze_last l)).

(** *** Notions the properties are stated with *)

(** The reference the stable [log_sum_exp] is compared with:
    log(sum over the last axis of exp(x_i)), with no maximum subtracted. *)
Definition naive_log_sum_exp (x : tensor) : tensor :=
  tlog (sum_last (texp x)).

(** [y_hat] with [c] added to the [logit_probs] slice (the first third of
    the last axis) at every position. *)
Definition shift_logits (c : R) (y_hat : tensor) : tensor :=
  let nr_mix := (last_dim (size y_hat) / 3)%nat in
  mkTensor (size y_hat)
    (concat (map (fun r => map (fun v => v + c) (firstn nr_mix r)
                           ++ skipn nr_mix r) (rows y_hat))).

(** [s] broadcasts to [ts]. *)
Definition broadcastable (s ts : list nat) : bool :=
  (length s <=? length ts)%nat && expandable (pad_shape (length ts) s) ts.

(** The inputs [LossFn_Mol] is meant for: [y_hat] of size [B, T, 3K] with
    at least one mixture component, [y] broadcastable to [B, T, K], and at
    least two quantization levels. *)
Definition valid_input (y_hat y : tensor) (num_classes : Z) : Prop :=
  wf y_hat /\ wf y /\
  dim y_hat = 3%nat /\
  (last_dim (size y_hat) mod 3 = 0)%nat /\
  (0 < last_dim (size y_hat))%nat /\
  broadcastable (size y)
    (front (size y_hat) ++ [(last_dim (size y_hat) / 3)%nat]) = true /\
  (2 <= num_classes)%Z.

(** ** wavernn.py: the training and evaluation loops *)

Module wavernn.

(** [x.transpose(1, 2)] *)
Definition transpose_1_2 (t : tensor) : result tensor :=
  match size t with
  | b :: c :: n :: rest =>
      let blocks := chunks (numel rest) (b * c * n) (data t) in
      let order :=
        flat_map (fun bi =>
          flat_map (fun ti =>
            map (fun ci => (bi * c * n + ci * n + ti)%nat) (seq 0 c))
            (seq 0 n))
          (seq 0 b) in
      Ok (mkTensor (b :: n :: c :: rest)
                   (concat (map (fun i => nth i blocks []) order)))
  | _ => Raise IndexError
  end.

(** [loss.item()] *)
Definition item (t : tensor) : result R :=
  match data t with
  | [v] => Ok v
  | _ => Raise (ValueError
           "only one element tensors can be converted to Python scalars")
  end.

(** [sums = defaultdict(lambda: 0.0)] *)
Definition defaultdict : Type := list (string * R).

Fixpoint dd_get (k : string) (d : defaultdict) : R :=
  match d with
  | [] => 0
  | (k', v) :: d' => if String.eqb k k' then v else dd_get k d'
  end.

Fixpoint dd_set (k : string) (v : R) (d : defaultdict) : defaultdict :=
  match d with
  | [] => [(k, v)]
  | (k', v') :: d' =>
      if String.eqb k k' then (k, v) :: d' else (k', v') :: dd_set k v d'
  end.

(** [sums[k] += v] *)
Definition dd_add (k : string) (v : R) (d : defaultdict) : defaultdict :=
  dd_set k (dd_get k d + v) d.

(** [k in sums] *)
Fixpoint dd_mem (k : string) (d : defaultdict) : bool :=
  match d with
  | [] => false
  | (k', _) :: d' => String.eqb k k' || dd_mem k d'
  end.

(** [total / len(data_loader)] *)
Definition div_len (total : R) (n : nat) : result R :=
  match n with
  | O => Raise ZeroDivisionError
  | _ => Ok (total / INR n)
  end.

(** The collaborators of the loops, acting on the state [Params] of the
    model and its optimizer: [model.mode], [model(x, m)], [criterion],
    [optimizer.zero_grad(); loss.backward()], [args.clip_norm],
    [clip_grad_norm_] (the clipped state and the norm) and
    [optimizer.step()]. *)
Record trainer (Params : Type) : Type := mkTrainer {
  mode : string;
  forward : Params -> tensor -> tensor -> result tensor;
  criterion : tensor -> tensor -> result tensor;
  backward : Params -> tensor -> result Params;
  clip_norm : R;
  clip_grad_norm : Params -> R -> result (Params * R);
  step : Params -> result Params
}.

Arguments mode {Params} _.
Arguments forward {Params} _.
Arguments criterion {Params} _.
Arguments backward {Params} _.
Arguments clip_norm {Params} _.
Arguments clip_grad_norm {Params} _.
Arguments step {Params} _.

(** [ValueError('This input mode is not valid.')] *)
Definition mode_error : exn := ValueError "This input mode is not valid.".

(** A batch [(x, m, y)] of the data loader. *)
Definition batch : Type := (tensor * tensor * tensor)%type.

Fixpoint for_each {S B : Type} (body : S -> B -> result S) (st : S)
    (l : list B) : result S :=
  match l with
  | [] => Ok st
  | b :: l' => st' <- body st b ;; for_each body st' l'
  end.

(** The body of the loop of [train_one_epoch]. *)
Definition train_batch {Params : Type} (tr : trainer Params)
    (st : Params * defaultdict) (b : batch)
    : result (Params * defaultdict) :=
  let '(p, sums) := st in
  let '(x, m, y) := b in
  y_hat <- forward tr p x m ;;
  yy <- (if String.eqb (mode tr) "RAW" then
           y_hat' <- transpose_1_2 y_hat ;; Ok (y_hat', y)
         else if String.eqb (mode tr) "MOL" then
           Ok (y_hat, unsqueeze_last y)
         else Raise mode_error) ;;
  loss <- criterion tr (fst yy) (snd yy) ;;
  l <- item loss ;;
  let sums := dd_add "loss" l sums in
  p <- backward tr p loss ;;
  st <- (if Rlt_dec 0 (clip_norm tr) then
           pn <- clip_grad_norm tr p (clip_norm tr) ;;
           Ok (fst pn, dd_add "gradient" (snd pn) sums)
         else Ok (p, sums)) ;;
  p <- step tr (fst st) ;;
  Ok (p, snd st).

(** [train_one_epoch]: the trained state, the average loss and, when
    gradients were clipped, the average gradient norm. *)
Definition train_one_epoch {Params : Type} (tr : trainer Params) (p : Params)
    (data_loader : list batch) : result (Params * R * option R) :=
  st <- for_each (train_batch tr) (p, []) data_loader ;;
  avg_loss <- div_len (dd_get "loss" (snd st)) (length data_loader) ;;
  if dd_mem "gradient" (snd st) then
    avg_gradient <- div_len (dd_get "gradient" (snd st)) (length data_loader) ;;
    Ok (fst st, avg_loss, Some avg_gradient)
  else Ok (fst st, avg_loss, None).

(** The body of the loop of [evaluate]. *)
Definition evaluate_batch {Params : Type} (tr : trainer Params) (p : Params)
    (sums : defaultdict) (b : batch) : result defaultdict :=
  let '(x, m, y) := b in
  y_hat <- forward tr p x m ;;
  yy <- (if String.eqb (mode tr) "RAW" then
           y_hat' <- transpose_1_2 y_hat ;; Ok (y_hat', y)
         else if String.eqb (mode tr) "MOL" then
           Ok (y_hat, unsqueeze_last y)
         else Raise mode_error) ;;
  loss <- criterion tr (fst yy) (snd yy) ;;
  l <- item loss ;;
  Ok (dd_add "loss" l sums).

(** [evaluate]: the average loss. *)
Definition evaluate {Params : Type} (tr : trainer Params) (p : Params)
    (data_loader : list batch) : result R :=
  sums <- for_each (evaluate_batch tr p) [] data_loader ;;
  div_len (dd_get "loss" sums) (length data_loader).

(** *** Checkpoints, parameter count and the epochs of [main] *)

(** The exceptions of [os] and [shutil], and what a run can raise. *)
Inductive os_exn : Type := FileNotFoundError | SameFileError.

Inductive raised : Type :=
| PyExn (e : exn)
| OSError (e : os_exn).

Inductive outcome (A : Type) : Type :=
| Done (a : A)
| Failed (e : raised).

Arguments Done {A} a.
Arguments Failed {A} e.

(** The regular files, by path as written. *)
Definition filesystem (A : Type) : Type := string -> option A.

(** [os.path.isfile(p)] *)
Definition isfile {A : Type} (fs : filesystem A) (p : string) : bool :=
  match fs p with
  | Some _ => true
  | None => false
  end.

Definition fs_write {A : Type} (fs : filesystem A) (p : string) (v : A)
    : filesystem A :=
  fun q => if String.eqb q p then Some v else fs q.

Definition fs_delete {A : Type} (fs : filesystem A) (p : string)
    : filesystem A :=
  fun q => if String.eqb q p then None else fs q.

(** [os.remove(p)] *)
Definition os_remove {A : Type} (fs : filesystem A) (p : string)
    : os_exn + filesystem A :=
  if isfile fs p then inr (fs_delete fs p) else inl FileNotFoundError.

(** [os.rename(src, dst)]: an existing [dst] is replaced. *)
Definition os_rename {A : Type} (fs : filesystem A) (src dst : string)
    : os_exn + filesystem A :=
  match fs src with
  | None => inl FileNotFoundError
  | Some v =>
      inr (if String.eqb src dst then fs
           else fs_write (fs_delete fs src) dst v)
  end.

(** [shutil.copyfile(src, dst)] *)
Definition copyfile {A : Type} (fs : filesystem A) (src dst : string)
    : os_exn + filesystem A :=
  match fs src with
  | None => inl FileNotFoundError
  | Some v =>
      if String.eqb src dst then inl SameFileError
      else inr (fs_write fs dst v)
  end.

(** [torch.save(obj, p)] *)
Definition torch_save {A : Type} (fs : filesystem A) (p : string) (obj : A)
    : filesystem A :=
  fs_write fs p obj.

(** [save_checkpoint(state, is_best, filename)]: the exception raised, if
    any, and the file system it leaves. *)
Definition save_checkpoint {A : Type} (state : A) (is_best : bool)
    (filename : string) (fs : filesystem A) : option os_exn * filesystem A :=
  if String.eqb filename "" then (None, fs)
  else
    let tempfile := (filename ++ ".temp")%string in
    match (if isfile fs tempfile then os_remove fs tempfile else inr fs) with
    | inl e => (Some e, fs)
    | inr fs1 =>
        let fs2 := torch_save fs1 tempfile state in
        match (if isfile fs2 tempfile then os_rename fs2 tempfile filename
               else inr fs2) with
        | inl e => (Some e, fs2)
        | inr fs3 =>
            if is_best then
              match copyfile fs3 filename "model_best.pth.tar" with
              | inl e => (Some e, fs3)
              | inr fs4 => (None, fs4)
              end
            else (None, fs3)
        end
    end.


(** The dictionary [main] saves: "epoch", "best_loss", and the
    "state_dict" and "optimizer" entries together as the state the
    trainer acts on. *)
Record checkpoint_dict (Params : Type) : Type := mkCheckpoint {
  ck_epoch : Z;
  ck_state : Params;
  ck_best_loss : R
}.

Arguments mkCheckpoint {Params} _ _ _.
Arguments ck_epoch {Params} _.
Arguments ck_state {Params} _.
Arguments ck_best_loss {Params} _.

(** The arguments [main] uses after the model and the loaders are built. *)
Record arguments : Type := mkArguments {
  checkpoint : string;
  start_epoch : Z;
  epochs : Z;
  print_freq : Z;
  upsample_scales : list Z;
  hop_length : Z
}.

(** [range(start, stop)] *)
Definition range (start stop : Z) : list Z :=
  map (fun i => (start + Z.of_nat i)%Z) (seq 0 (Z.to_nat (stop - start))).

Fixpoint for_epochs {S : Type} (body : S -> Z -> outcome S) (st : S)
    (l : list Z) : outcome S :=
  match l with
  | [] => Done st
  | epoch :: l' =>
      match body st epoch with
      | Done st' => for_epochs body st' l'
      | Failed e => Failed e
      end
  end.

(** The body of the epoch loop of [main]; the state is the trained state,
    [best_loss] and the file system. *)
Definition epoch_body {Params : Type} (args : arguments)
    (tr : trainer Params) (loader_training loader_test : list batch)
    (st : Params * R * filesystem (checkpoint_dict Params)) (epoch : Z)
    : outcome (Params * R * filesystem (checkpoint_dict Params)) :=
  let '(p, best_loss, fs) := st in
  match train_one_epoch tr p loader_training with
  | Raise e => Failed (PyExn e)
  | Ok (p, _, _) =>
      if (print_freq args =? 0)%Z then Failed (PyExn ZeroDivisionError)
      else if ((epoch + 1) mod print_freq args =? 0)%Z
              || (epoch + 1 =? epochs args)%Z then
        match evaluate tr p loader_test with
        | Raise e => Failed (PyExn e)
        | Ok sum_loss =>
            let is_best :=
              if Rlt_dec sum_loss best_loss then true else false in
            let best_loss := Rmin sum_loss best_loss in
            match save_checkpoint
                    (mkCheckpoint (epoch + 1) p best_loss) is_best
                    (checkpoint args) fs with
            | (Some e, _) => Failed (OSError e)
            | (None, fs) => Done (p, best_loss, fs)
            end
        end
      else Done (p, best_loss, fs)
  end.

(** [main(args)] from the check of the hop length on: the model, the
    loaders and the freshly initialised state [p] are given.  It leaves
    the trained state, [best_loss] and the file system. *)
Definition main {Params : Type} (args : arguments) (tr : trainer Params)
    (p : Params) (loader_training loader_test : list batch)
    (fs : filesystem (checkpoint_dict Params))
    : outcome (Params * R * filesystem (checkpoint_dict Params)) :=
  let total_scale := fold_left Z.mul (upsample_scales args) 1%Z in
  if negb (total_scale =? hop_length args)%Z
  then Failed (PyExn AssertionError)
  else
    let best_loss := 1.0 in
    let load_checkpoint :=
      negb (String.eqb (checkpoint args) "")
      && isfile fs (checkpoint args) in
    if load_checkpoint then
      match fs (checkpoint args) with
      | None => Failed (OSError FileNotFoundError)
      | Some ck =>
          for_epochs (epoch_body args tr loader_training loader_test)
            (ck_state ck, ck_best_loss ck, fs)
            (range (ck_epoch ck) (epochs args))
      end
    else
      match save_checkpoint (mkCheckpoint (start_epoch args) p best_loss)
              false (checkpoint args) fs with
      | (Some e, _) => Failed (OSError e)
      | (None, fs) =>
          for_epochs (epoch_body args tr loader_training loader_test)
            (p, best_loss, fs) (range (start_epoch args) (epochs args))
      end.

End wavernn.

(** * Properties *)

(** ** The error monad *)

Lemma bind_ok {A B : Type} (a : A) (k : A -> result B) :
  bind (Ok a) k = k a.
Proof. reflexivity. Qed.

Lemma bind_ext {A B : Type} (m : result A) (k k' : A -> result B) :
  (forall a, m = Ok a -> k a = k' a) -> bind m k = bind m k'.
Proof. destruct m; simpl; auto. Qed.

(** [avoids e m]: [m] does not raise [e]. *)
Definition avoids {A : Type} (e : exn) (m : result A) : Prop :=
  m <> Raise e.

Lemma avoids_ok {A : Type} (e : exn) (a : A) : avoids e (Ok a).
Proof. discriminate. Qed.

Lemma avoids_other {A : Type} (e e' : exn) : e' <> e -> avoids e (@Raise A e').
Proof. intros H E. inversion E. contradiction. Qed.

Lemma avoids_bind {A B : Type} (e : exn) (m : result A) (k : A -> result B) :
  avoids e m -> (forall a, avoids e (k a)) -> avoids e (bind m k).
Proof.
  unfold avoids. destruct m as [a|e']; simpl; intros Hm Hk.
  - apply Hk.
  - intros E. apply Hm. inversion E. reflexivity.
Qed.

Lemma avoids_if {A : Type} (e : exn) (b : bool) (m1 m2 : result A) :
  avoids e m1 -> avoids e m2 -> avoids e (if b then m1 else m2).
Proof. destruct b; auto. Qed.

(** ** Lists, blocks and sizes *)

Lemma shape_eqb_eq (a b : list nat) : shape_eqb a b = true <-> a = b.
Proof.
  revert b. induction a as [|m a IH]; intros [|n b]; simpl; split;
    try discriminate; try reflexivity.
  - rewrite andb_true_iff, Nat.eqb_eq, IH. intros [-> ->]. reflexivity.
  - intros E. inversion E; subst. rewrite Nat.eqb_refl. simpl.
    apply IH. reflexivity.
Qed.

Lemma shape_eqb_refl (a : list nat) : shape_eqb a a = true.
Proof. apply shape_eqb_eq. reflexivity. Qed.

Lemma zipWith_length (f : R -> R -> R) (a b : list R) :
  length (zipWith f a b) = Nat.min (length a) (length b).
Proof.
  revert b. induction a as [|x a IH]; intros [|y b]; simpl; auto.
Qed.

Lemma nth_zipWith (f : R -> R -> R) (a b : list R) (i : nat) (d : R) :
  (i < length a)%nat -> (i < length b)%nat ->
  nth i (zipWith f a b) d = f (nth i a d) (nth i b d).
Proof.
  revert b i. induction a as [|x a IH]; intros [|y b] [|i]; simpl;
    try lia; auto.
  intros Ha Hb. apply IH; lia.
Qed.

Lemma chunks_length (c n : nat) (l : list R) : length (chunks c n l) = n.
Proof. revert l. induction n; simpl; auto. Qed.

Lemma chunks_Forall_length (c n : nat) (l : list R) :
  length l = (n * c)%nat -> Forall (fun r => length r = c) (chunks c n l).
Proof.
  revert l. induction n as [|n IH]; simpl; intros l H; constructor.
  - rewrite length_firstn. lia.
  - apply IH. rewrite length_skipn. lia.
Qed.

Lemma concat_chunks (c n : nat) (l : list R) :
  length l = (n * c)%nat -> concat (chunks c n l) = l.
Proof.
  revert l. induction n as [|n IH]; simpl; intros l H.
  - destruct l; simpl in *; [reflexivity | lia].
  - rewrite IH by (rewrite length_skipn; lia). apply firstn_skipn.
Qed.

Lemma chunks_concat (c : nat) (rs : list (list R)) :
  Forall (fun r => length r = c) rs -> chunks c (length rs) (concat rs) = rs.
Proof.
  induction 1 as [|r rs Hr _ IH]; simpl; auto.
  subst c.
  rewrite firstn_app, Nat.sub_diag, firstn_O, app_nil_r, firstn_all.
  rewrite skipn_app, Nat.sub_diag, skipn_O, skipn_all. simpl.
  rewrite IH. reflexivity.
Qed.

Lemma length_concat_const (c : nat) (rs : list (list R)) :
  Forall (fun r => length r = c) rs ->
  length (concat rs) = (length rs * c)%nat.
Proof.
  induction 1 as [|r rs Hr _ IH]; simpl; auto.
  rewrite length_app, IH, Hr. reflexivity.
Qed.

Lemma numel_app (s s' : list nat) : numel (s ++ s') = (numel s * numel s')%nat.
Proof. induction s as [|n s IH]; simpl; [lia | rewrite IH; lia]. Qed.

Lemma front_last (s : list nat) : s <> [] -> s = front s ++ [last_dim s].
Proof. intros H. apply app_removelast_last. exact H. Qed.

Lemma numel_front_last (s : list nat) :
  (numel (front s) * last_dim s)%nat = numel s.
Proof.
  destruct s as [|n s].
  - reflexivity.
  - rewrite (front_last (n :: s)) at 3 by discriminate.
    rewrite numel_app. simpl. lia.
Qed.

Lemma front_app (s : list nat) (c : nat) : front (s ++ [c]) = s.
Proof. apply removelast_last. Qed.

Lemma last_dim_app (s : list nat) (c : nat) : last_dim (s ++ [c]) = c.
Proof. apply last_last. Qed.

(** The rows of a well-formed tensor have the length of the last axis and
    make up its storage. *)
Lemma rows_length (t : tensor) : length (rows t) = numel (front (size t)).
Proof. apply chunks_length. Qed.

Lemma rows_Forall_length (t : tensor) :
  wf t -> Forall (fun r => length r = last_dim (size t)) (rows t).
Proof.
  intros H. apply chunks_Forall_length. rewrite numel_front_last. exact H.
Qed.

Lemma concat_rows (t : tensor) : wf t -> concat (rows t) = data t.
Proof.
  intros H. apply concat_chunks. rewrite numel_front_last. exact H.
Qed.

(** ** Which exceptions the tensor operations raise *)

Lemma expand_avoids (e : exn) (t : tensor) (ts : list nat) :
  e <> RuntimeError -> avoids e (expand t ts).
Proof.
  intros He. unfold expand.
  repeat apply avoids_if;
    first [apply avoids_ok | apply avoids_other; congruence].
Qed.

Lemma tbin_avoids (e : exn) (f : R -> R -> R) (a b : tensor) :
  e <> RuntimeError -> avoids e (tbin f a b).
Proof.
  intros He. unfold tbin. apply avoids_if; [apply avoids_ok|].
  destruct (broadcast_shapes (size a) (size b)).
  - apply avoids_bind; [apply expand_avoids; exact He|]. intros a'.
    apply avoids_bind; [apply expand_avoids; exact He|]. intros b'.
    apply avoids_ok.
  - apply avoids_other. congruence.
Qed.

Lemma half_bin_avoids (e : exn) (num_classes : Z) :
  e <> ZeroDivisionError -> avoids e (half_bin num_classes).
Proof.
  intros He. unfold half_bin.
  apply avoids_if; [apply avoids_other; congruence | apply avoids_ok].
Qed.

Lemma max_last_avoids (e : exn) (k : bool) (t : tensor) :
  e <> IndexError -> avoids e (max_last k t).
Proof.
  intros He. unfold max_last.
  apply avoids_if; [apply avoids_other; congruence | apply avoids_ok].
Qed.

Lemma log_sum_exp_avoids (e : exn) (x : tensor) :
  e <> RuntimeError -> e <> IndexError -> avoids e (log_sum_exp x).
Proof.
  intros H1 H2. unfold log_sum_exp, add, sub.
  repeat (apply avoids_bind; [|intros ?]);
    first [apply max_last_avoids; exact H2 | apply tbin_avoids; exact H1].
Qed.

Ltac avoids_step :=
  first
    [ apply avoids_ok
    | apply tbin_avoids; discriminate
    | apply half_bin_avoids; discriminate
    | apply expand_avoids; discriminate
    | apply log_sum_exp_avoids; discriminate
    | apply avoids_if
    | apply avoids_bind; [|intros ?] ].

(** C7. [LossFn_Mol] raises the AssertionError of its shape preconditions
    exactly when [y_hat] is not of rank 3 or its last axis is not divisible
    by 3, whatever the other arguments are: the two assertions come before
    every tensor operation, and nothing after them raises that error. *)
Theorem LossFn_Mol_shape_precondition (y_hat y : tensor) (num_classes : Z)
    (log_scale_min : option R) (reduce : bool) :
  LossFn_Mol y_hat y num_classes log_scale_min reduce = Raise AssertionError
  <-> ~ (dim y_hat = 3%nat /\ (last_dim (size y_hat) mod 3 = 0)%nat).
Proof.
  unfold LossFn_Mol, LossFn_Mol_locals, assert.
  destruct (dim y_hat =? 3)%nat eqn:Hd; cbn [bind].
  - apply Nat.eqb_eq in Hd.
    destruct (last_dim (size y_hat) mod 3 =? 0)%nat eqn:Hm; cbn [bind].
    + apply Nat.eqb_eq in Hm. split; [|tauto].
      intros E. exfalso. revert E.
      match goal with |- ?m = Raise ?e -> False => change (avoids e m) end.
      unfold expand_as, add, sub, mul.
      repeat avoids_step.
    + apply Nat.eqb_neq in Hm. split; [tauto | reflexivity].
  - apply Nat.eqb_neq in Hd. split; [tauto | reflexivity].
Qed.

(** ** Reduction *)

Lemma row_sum_opp (l : list R) : row_sum (map Ropp l) = - row_sum l.
Proof.
  induction l as [|x l IH]; simpl; [lra | rewrite IH; lra].
Qed.

Lemma mean_neg (t : tensor) : mean (neg t) = neg (mean t).
Proof.
  unfold mean, neg, tmap. simpl. rewrite row_sum_opp.
  f_equal. f_equal. unfold Rdiv. ring.
Qed.

Lemma squeeze_unsqueeze (t : tensor) : squeeze_last (unsqueeze_last t) = t.
Proof.
  destruct t as [s d]. unfold squeeze_last, unsqueeze_last. simpl.
  rewrite last_dim_app, front_app. simpl.
  destruct (s ++ [1%nat]) eqn:E; [|reflexivity].
  destruct s; discriminate.
Qed.

Lemma LossFn_Mol_reduce_bind (y_hat y : tensor) (num_classes : Z)
    (log_scale_min : option R) :
  LossFn_Mol y_hat y num_classes log_scale_min true =
  (t <- LossFn_Mol y_hat y num_classes log_scale_min false ;;
   Ok (mean (squeeze_last t))).
Proof.
  unfold LossFn_Mol.
  destruct (LossFn_Mol_locals y_hat y num_classes log_scale_min) as [L|e];
    cbn [bind]; [|reflexivity].
  destruct (add (log_probs L) (log_softmax (logit_probs L))) as [lp|e];
    cbn [bind]; [|reflexivity].
  destruct (log_sum_exp lp) as [l|e]; cbn [bind]; [|reflexivity].
  change (neg (unsqueeze_last l)) with (unsqueeze_last (neg l)).
  rewrite squeeze_unsqueeze, mean_neg. reflexivity.
Qed.

(** ** Sizes and elements of the tensor operations *)

(** The element at a position of the row-major storage. *)
Definition elt (t : tensor) (i : nat) : R := nth i (data t) 0.

(** A well-formed tensor of size [s]. *)
Definition sized (s : list nat) (t : tensor) : Prop :=
  size t = s /\ length (data t) = numel s.

Lemma sized_wf (s : list nat) (t : tensor) : sized s t -> wf t.
Proof. intros [Hs Hl]. unfold wf. rewrite Hs. exact Hl. Qed.

Lemma wf_sized (t : tensor) : wf t -> sized (size t) t.
Proof. intros H. split; [reflexivity | exact H]. Qed.

Lemma sized_tmap (s : list nat) (f : R -> R) (t : tensor) :
  sized s t -> sized s (tmap f t).
Proof.
  intros [Hs Hl]. split; simpl; [exact Hs | rewrite length_map; exact Hl].
Qed.

Lemma elt_tmap (s : list nat) (f : R -> R) (t : tensor) (i : nat) :
  sized s t -> (i < numel s)%nat -> elt (tmap f t) i = f (elt t i).
Proof.
  intros [_ Hl] Hi. unfold elt. simpl.
  rewrite (nth_indep _ 0 (f 0)) by (rewrite length_map; lia).
  apply map_nth.
Qed.

Lemma tbin_same (f : R -> R -> R) (a b : tensor) :
  size a = size b ->
  tbin f a b = Ok (mkTensor (size a) (zipWith f (data a) (data b))).
Proof.
  intros H. unfold tbin. rewrite H, shape_eqb_refl. reflexivity.
Qed.

Lemma tbin_sized (f : R -> R -> R) (a b : tensor) (s : list nat) :
  sized s a -> sized s b ->
  exists t, tbin f a b = Ok t /\ sized s t /\
    forall i, (i < numel s)%nat -> elt t i = f (elt a i) (elt b i).
Proof.
  intros [Ha La] [Hb Lb]. eexists. split; [|split].
  - apply tbin_same. congruence.
  - split; simpl; [exact Ha | rewrite zipWith_length; lia].
  - intros i Hi. unfold elt. simpl. apply nth_zipWith; lia.
Qed.

(** Slices along the last axis. *)
Lemma slice_last_sized (lo hi : nat) (t : tensor) :
  wf t -> (lo <= hi)%nat -> (hi <= last_dim (size t))%nat ->
  sized (front (size t) ++ [(hi - lo)%nat]) (slice_last lo hi t).
Proof.
  intros Hw Hlo Hhi. unfold slice_last.
  rewrite (Nat.min_l lo) by lia. rewrite (Nat.min_l hi) by lia.
  rewrite (Nat.max_r lo hi) by lia.
  split; simpl; [reflexivity|].
  rewrite numel_app. simpl. rewrite Nat.mul_1_r.
  rewrite (length_concat_const (hi - lo)).
  - rewrite length_map, rows_length. reflexivity.
  - apply Forall_map. eapply Forall_impl; [|apply rows_Forall_length, Hw].
    simpl. intros r Hr. rewrite length_firstn, length_skipn. lia.
Qed.

(** Expansion. *)
Lemma numel_pad_shape (r : nat) (s : list nat) :
  numel (pad_shape r s) = numel s.
Proof.
  unfold pad_shape. rewrite numel_app.
  induction (r - length s)%nat as [|k IH]; simpl; lia.
Qed.

Lemma length_concat_repeat (x : list R) (n : nat) :
  length (concat (repeat x n)) = (n * length x)%nat.
Proof.
  induction n as [|n IH]; simpl; [reflexivity|].
  rewrite length_app, IH. reflexivity.
Qed.

Lemma expand_data_length (ys ts : list nat) (d : list R) :
  expandable ys ts = true -> length d = numel ys ->
  length (expand_data ys ts d) = numel ts.
Proof.
  revert ts d. induction ys as [|m ys IH]; intros [|n ts] d; simpl;
    try discriminate; auto.
  rewrite andb_true_iff, orb_true_iff, !Nat.eqb_eq. intros [Hm He] Hd.
  assert (Hsub : Forall (fun r => length r = numel ts)
            (map (expand_data ys ts) (chunks (numel ys) m d))).
  { apply Forall_map.
    eapply Forall_impl; [|apply chunks_Forall_length; exact Hd].
    simpl. intros r Hr. apply IH; assumption. }
  pose proof (length_concat_const _ _ Hsub) as Hc.
  rewrite length_map, chunks_length in Hc.
  destruct (m =? n)%nat eqn:E.
  - apply Nat.eqb_eq in E. subst n. exact Hc.
  - apply Nat.eqb_neq in E. destruct Hm as [Hm|Hm]; [contradiction|].
    subst m. rewrite length_concat_repeat, Hc. lia.
Qed.

Lemma expand_sized (t : tensor) (ts : list nat) :
  wf t -> broadcastable (size t) ts = true ->
  exists t', expand t ts = Ok t' /\ sized ts t'.
Proof.
  intros Hw Hb. unfold broadcastable in Hb.
  apply andb_true_iff in Hb. destruct Hb as [Hl He].
  apply Nat.leb_le in Hl. unfold expand.
  destruct (shape_eqb (size t) ts) eqn:E.
  - apply shape_eqb_eq in E. exists t. split; [reflexivity|].
    subst ts. apply wf_sized, Hw.
  - replace (length ts <? length (size t))%nat with false
      by (symmetry; apply Nat.ltb_ge; exact Hl).
    rewrite He. eexists. split; [reflexivity|]. split; simpl; [reflexivity|].
    apply expand_data_length; [exact He|].
    rewrite numel_pad_shape. exact Hw.
Qed.

(** ** The local variables of [LossFn_Mol] on valid inputs *)

(** What lines 41 to 73 compute at position [i], with [h] the half bin
    width. *)
Record pointwise (L : locals) (h : R) (i : nat) : Prop := mkPointwise {
  pw_centered_y :
    elt (centered_y L) i = elt (y_expanded L) i - elt (means L) i;
  pw_inv_stdv : elt (inv_stdv L) i = exp (- elt (log_scales L) i);
  pw_plus_in :
    elt (plus_in L) i = elt (inv_stdv L) i * (elt (centered_y L) i + h);
  pw_cdf_plus : elt (cdf_plus L) i = sigmoid (elt (plus_in L) i);
  pw_min_in :
    elt (min_in L) i = elt (inv_stdv L) i * (elt (centered_y L) i - h);
  pw_cdf_min : elt (cdf_min L) i = sigmoid (elt (min_in L) i);
  pw_log_cdf_plus :
    elt (log_cdf_plus L) i = elt (plus_in L) i - softplus (elt (plus_in L) i);
  pw_log_one_minus_cdf_min :
    elt (log_one_minus_cdf_min L) i = - softplus (elt (min_in L) i);
  pw_cdf_delta :
    elt (cdf_delta L) i = elt (cdf_plus L) i - elt (cdf_min L) i;
  pw_mid_in : elt (mid_in L) i = elt (inv_stdv L) i * elt (centered_y L) i;
  pw_log_pdf_mid :
    elt (log_pdf_mid L) i =
    elt (mid_in L) i - elt (log_scales L) i - 2 * softplus (elt (mid_in L) i);
  pw_inner_inner_cond :
    elt (inner_inner_cond L) i = indicator_gt 1e-5 (elt (cdf_delta L) i);
  pw_inner_inner_out :
    elt (inner_inner_out L) i =
    elt (inner_inner_cond L) i * ln (Rmax (elt (cdf_delta L) i) 1e-12)
    + (1 - elt (inner_inner_cond L) i) * (elt (log_pdf_mid L) i - tmp);
  pw_inner_cond :
    elt (inner_cond L) i = indicator_gt 0.999 (elt (y_expanded L) i);
  pw_inner_out :
    elt (inner_out L) i =
    elt (inner_cond L) i * elt (log_one_minus_cdf_min L) i
    + (1 - elt (inner_cond L) i) * elt (inner_inner_out L) i;
  pw_cond : elt (cond L) i = indicator_lt (-0.999) (elt (y_expanded L) i);
  pw_log_probs :
    elt (log_probs L) i =
    elt (cond L) i * elt (log_cdf_plus L) i
    + (1 - elt (cond L) i) * elt (inner_out L) i
}.

Ltac sized_solve :=
  unfold texp, tlog, neg, clamp_min, gt_float, lt_float;
  repeat apply sized_tmap; assumption.

Ltac run_bin s :=
  match goal with
  | |- context [tbin ?f ?a ?b] =>
      let t := fresh "t" in
      let E := fresh "E" in
      let Hs := fresh "Hs" in
      let Hn := fresh "Hn" in
      destruct (tbin_sized f a b s) as (t & E & Hs & Hn);
      [sized_solve | sized_solve | rewrite E; cbn [bind]]
  end.

Ltac elt_solve s :=
  repeat first
    [ progress unfold texp, tlog, neg, clamp_min, gt_float, lt_float
    | progress (rewrite (elt_tmap s) by (try assumption; sized_solve))
    | match goal with
      | H : forall i, (i < _)%nat -> elt ?t i = _ |- context [elt ?t _] =>
          rewrite H by assumption
      end ];
  try reflexivity.

(** Once the slices and the expanded target have one size [s], lines 41 to
    73 raise nothing and compute [pointwise] at every position. *)
Lemma LossFn_Mol_locals_run (y_hat y : tensor) (num_classes : Z)
    (log_scale_min : option R) (s : list nat) (y' : tensor) (h : R) :
  let nr_mix := (last_dim (size y_hat) / 3)%nat in
  let lsm := match log_scale_min with None => min_value | Some v => v end in
  dim y_hat = 3%nat ->
  (last_dim (size y_hat) mod 3 = 0)%nat ->
  sized s (slice_last 0 nr_mix y_hat) ->
  sized s (slice_last nr_mix (2 * nr_mix) y_hat) ->
  sized s (slice_last (2 * nr_mix) (3 * nr_mix) y_hat) ->
  expand_as y (slice_last nr_mix (2 * nr_mix) y_hat) = Ok y' ->
  sized s y' ->
  half_bin num_classes = Ok h ->
  exists L,
    LossFn_Mol_locals y_hat y num_classes log_scale_min = Ok L /\
    logit_probs L = slice_last 0 nr_mix y_hat /\
    means L = slice_last nr_mix (2 * nr_mix) y_hat /\
    log_scales L =
      clamp_min lsm (slice_last (2 * nr_mix) (3 * nr_mix) y_hat) /\
    y_expanded L = y' /\
    sized s (log_probs L) /\
    forall i, (i < numel s)%nat -> pointwise L h i.
Proof.
  intros nr_mix lsm Hd Hm Hlp Hmn Hls Hy Hy' Hh.
  unfold LossFn_Mol_locals, assert.
  apply Nat.eqb_eq in Hd, Hm. rewrite Hd, Hm. cbn [bind]. cbv zeta.
  fold nr_mix. fold lsm.
  rewrite Hy. cbn [bind]. unfold add, sub, mul.
  run_bin s. rewrite Hh. cbn [bind].
  do 16 run_bin s.
  eexists. split; [reflexivity|].
  cbn [logit_probs means log_scales y_expanded log_probs].
  repeat (split; [first [reflexivity | assumption]|]).
  intros i Hi. constructor;
    cbn [logit_probs means log_scales y_expanded centered_y inv_stdv plus_in
         cdf_plus min_in cdf_min log_cdf_plus log_one_minus_cdf_min cdf_delta
         mid_in log_pdf_mid inner_inner_cond inner_inner_out inner_cond
         inner_out cond log_probs];
    elt_solve s.
Qed.

(** ** Broadcasting a kept axis, and [log_sum_exp] row by row *)

Lemma zipWith_app (f : R -> R -> R) (a a' b b' : list R) :
  length a = length b ->
  zipWith f (a ++ a') (b ++ b') = zipWith f a b ++ zipWith f a' b'.
Proof.
  revert b. induction a as [|x a IH]; intros [|y b] H; simpl in *;
    try discriminate; auto.
  rewrite IH by lia. reflexivity.
Qed.

Lemma zipWith_repeat (f : R -> R -> R) (r : list R) (m : R) :
  zipWith f r (repeat m (length r)) = map (fun v => f v m) r.
Proof. induction r as [|x r IH]; simpl; [|rewrite IH]; reflexivity. Qed.

Lemma zipWith_map (f : R -> R -> R) {A : Type} (g h : A -> R) (l : list A) :
  zipWith f (map g l) (map h l) = map (fun x => f (g x) (h x)) l.
Proof. induction l as [|x l IH]; simpl; [|rewrite IH]; reflexivity. Qed.

Lemma zipWith_rows_bcast (f : R -> R -> R) (g : list R -> R) (c : nat)
    (rs : list (list R)) :
  Forall (fun r => length r = c) rs ->
  zipWith f (concat rs) (flat_map (fun v => repeat v c) (map g rs)) =
  concat (map (fun r => map (fun v => f v (g r)) r) rs).
Proof.
  induction 1 as [|r rs Hr _ IH]; simpl; [reflexivity|].
  rewrite zipWith_app by (rewrite repeat_length; exact Hr).
  rewrite IH. subst c. rewrite zipWith_repeat. reflexivity.
Qed.

Lemma chunks_map (f : R -> R) (c n : nat) (l : list R) :
  chunks c n (map f l) = map (map f) (chunks c n l).
Proof.
  revert l. induction n as [|n IH]; intros l; simpl; [reflexivity|].
  rewrite firstn_map, skipn_map, IH. reflexivity.
Qed.

Lemma concat_map_flat_map {A : Type} (g : R -> list A) (l : list (list R)) :
  concat (map (flat_map g) l) = flat_map g (concat l).
Proof.
  induction l as [|x l IH]; simpl; [reflexivity|].
  rewrite IH, flat_map_app. reflexivity.
Qed.

Lemma concat_repeat_singleton (v : R) (n : nat) :
  concat (repeat [v] n) = repeat v n.
Proof. induction n as [|n IH]; simpl; [|rewrite IH]; reflexivity. Qed.

Lemma pad_shape_same (s : list nat) : pad_shape (length s) s = s.
Proof. unfold pad_shape. rewrite Nat.sub_diag. reflexivity. Qed.

Lemma broadcast_aligned_keep (pre : list nat) (c : nat) :
  broadcast_aligned (pre ++ [c]) (pre ++ [1%nat]) = Some (pre ++ [c]).
Proof.
  induction pre as [|n pre IH]; simpl.
  - destruct (c =? 1)%nat eqn:E; [apply Nat.eqb_eq in E; subst|]; reflexivity.
  - rewrite IH, Nat.eqb_refl. reflexivity.
Qed.

Lemma expandable_keep (pre : list nat) (c : nat) :
  expandable (pre ++ [1%nat]) (pre ++ [c]) = true.
Proof.
  induction pre as [|n pre IH]; simpl.
  - rewrite orb_true_r. reflexivity.
  - rewrite IH, Nat.eqb_refl. reflexivity.
Qed.

Lemma expand_data_keep (pre : list nat) (c : nat) (ms : list R) :
  length ms = numel pre ->
  expand_data (pre ++ [1%nat]) (pre ++ [c]) ms =
  flat_map (fun v => repeat v c) ms.
Proof.
  revert ms. induction pre as [|n pre IH]; intros ms H; simpl in *.
  - destruct ms as [|v [|w ms]]; simpl in H; try discriminate.
    simpl. rewrite app_nil_r.
    destruct c as [|[|c]]; try reflexivity.
    apply concat_repeat_singleton.
  - rewrite Nat.eqb_refl, numel_app. simpl. rewrite Nat.mul_1_r.
    rewrite (map_ext_in _ (flat_map (fun v => repeat v c))).
    + rewrite concat_map_flat_map, concat_chunks by exact H. reflexivity.
    + intros r Hin. apply IH.
      pose proof (chunks_Forall_length (numel pre) n ms H) as HF.
      rewrite Forall_forall in HF. apply HF, Hin.
Qed.

Lemma flat_map_single (l : list R) : flat_map (fun v => [v]) l = l.
Proof. induction l as [|x l IH]; simpl; [|rewrite IH]; reflexivity. Qed.

(** A tensor minus (or plus, ...) a tensor that kept its last axis as 1:
    each value of the second is used along a whole row of the first. *)
Lemma tbin_keepdim (f : R -> R -> R) (x : tensor) (ms : list R) :
  length ms = numel (front (size x)) ->
  tbin f x (mkTensor (keep (size x)) ms) =
  Ok (mkTensor (size x)
        (zipWith f (data x)
           (flat_map (fun v => repeat v (last_dim (size x))) ms))).
Proof.
  intros Hms. destruct (size x) as [|n0 s0] eqn:Es.
  - unfold tbin. simpl. rewrite Es. simpl.
    rewrite flat_map_single. reflexivity.
  - assert (Hne : n0 :: s0 <> []) by discriminate.
    pose proof (front_last _ Hne) as Hfl.
    set (pre := front (n0 :: s0)) in *. set (c := last_dim (n0 :: s0)) in *.
    assert (Hk : keep (n0 :: s0) = pre ++ [1%nat]) by reflexivity.
    rewrite Hk, Hfl. clear Hk.
    unfold tbin. cbn [size data]. rewrite Es, Hfl.
    destruct (shape_eqb (pre ++ [c]) (pre ++ [1%nat])) eqn:E.
    + apply shape_eqb_eq in E. apply app_inv_head in E.
      injection E as E. rewrite E.
      change (flat_map (fun v => repeat v 1) ms)
        with (flat_map (fun v => [v]) ms).
      rewrite flat_map_single. reflexivity.
    + unfold broadcast_shapes.
      replace (length (pre ++ [1%nat])) with (length (pre ++ [c]))
        by (rewrite !length_app; reflexivity).
      rewrite Nat.max_id, pad_shape_same.
      replace (pad_shape (length (pre ++ [c])) (pre ++ [1%nat]))
        with (pre ++ [1%nat]).
      2:{ replace (length (pre ++ [c])) with (length (pre ++ [1%nat]))
            by (rewrite !length_app; reflexivity).
          symmetry. apply pad_shape_same. }
      rewrite broadcast_aligned_keep.
      unfold expand. cbn [size data]. rewrite Es, Hfl, shape_eqb_refl.
      cbn [bind].
      replace (shape_eqb (pre ++ [1%nat]) (pre ++ [c])) with false.
      2:{ symmetry. destruct (shape_eqb (pre ++ [1%nat]) (pre ++ [c])) eqn:E';
            [|reflexivity].
          apply shape_eqb_eq in E'. rewrite E', shape_eqb_refl in E.
          discriminate. }
      replace (length (pre ++ [c]) <? length (pre ++ [1%nat]))%nat with false
        by (symmetry; apply Nat.ltb_ge; rewrite !length_app; simpl; lia).
      replace (pad_shape (length (pre ++ [c])) (pre ++ [1%nat]))
        with (pre ++ [1%nat]).
      2:{ replace (length (pre ++ [c])) with (length (pre ++ [1%nat]))
            by (rewrite !length_app; reflexivity).
          symmetry. apply pad_shape_same. }
      rewrite expandable_keep. cbn [bind data].
      rewrite expand_data_keep by exact Hms. reflexivity.
Qed.

(** What the stable evaluation computes on one row. *)
Definition stable_row (r : list R) : R :=
  row_max r + ln (row_sum (map exp (map (fun v => v - row_max r) r))).

Lemma log_sum_exp_rows (x : tensor) :
  wf x -> (0 < last_dim (size x))%nat ->
  log_sum_exp x = Ok (mkTensor (front (size x)) (map stable_row (rows x))).
Proof.
  intros Hw Hc. unfold log_sum_exp, max_last.
  replace (last_dim (size x) =? 0)%nat with false
    by (symmetry; apply Nat.eqb_neq; lia).
  cbn [bind]. unfold sub.
  rewrite tbin_keepdim by (rewrite length_map; apply rows_length).
  cbn [bind]. unfold add. rewrite tbin_same by reflexivity.
  cbn [size data]. f_equal. f_equal.
  unfold tlog, sum_last, texp, tmap. cbn [size data].
  pose proof (rows_Forall_length x Hw) as HF.
  pose proof (rows_length x) as Hn.
  pose proof (concat_rows x Hw) as Hd.
  set (rs := rows x) in *. unfold rows. cbn [size data].
  rewrite <- Hd, <- Hn.
  rewrite zipWith_rows_bcast by exact HF.
  rewrite concat_map, !map_map.
  replace (length rs)
    with (length (map (fun r => map exp (map (fun v => v - row_max r) r)) rs))
    by apply length_map.
  rewrite chunks_concat.
  - rewrite map_map. apply zipWith_map.
  - apply Forall_map. eapply Forall_impl; [|exact HF].
    simpl. intros r Hr. rewrite !length_map. exact Hr.
Qed.

(** On an empty last axis the maximum is refused. *)
Lemma log_sum_exp_empty_axis (x : tensor) :
  last_dim (size x) = 0%nat -> log_sum_exp x = Raise IndexError.
Proof.
  intros H. unfold log_sum_exp, max_last. rewrite H. reflexivity.
Qed.

Lemma row_sum_exp_shift (m : R) (r : list R) :
  row_sum (map exp (map (fun v => v - m) r)) =
  exp (- m) * row_sum (map exp r).
Proof.
  induction r as [|x r IH]; simpl; [ring|].
  rewrite IH. unfold Rminus. rewrite exp_plus. ring.
Qed.

Lemma row_sum_exp_pos (r : list R) : r <> [] -> 0 < row_sum (map exp r).
Proof.
  destruct r as [|x r]; [congruence|]. intros _. simpl.
  assert (H : 0 <= row_sum (map exp r)).
  { induction r as [|z r IH]; simpl; [lra|].
    pose proof (exp_pos z). lra. }
  pose proof (exp_pos x). lra.
Qed.

Lemma stable_row_naive (r : list R) :
  r <> [] -> stable_row r = ln (row_sum (map exp r)).
Proof.
  intros Hr. unfold stable_row. rewrite row_sum_exp_shift.
  rewrite ln_mult by (try apply exp_pos; apply row_sum_exp_pos, Hr).
  rewrite ln_exp. ring.
Qed.

(** C3. On every well-formed tensor whose last axis is not empty (the
    tensors [torch.max] reduces), [log_sum_exp] returns the reference
    log(sum over the last axis of exp(x_i)): subtracting the row maximum
    before the exponential and adding it back after the logarithm does not
    change the value. *)
Theorem log_sum_exp_refines_naive (x : tensor) :
  wf x -> (0 < last_dim (size x))%nat ->
  log_sum_exp x = Ok (naive_log_sum_exp x).
Proof.
  intros Hw Hc. rewrite log_sum_exp_rows by assumption.
  unfold naive_log_sum_exp, tlog, sum_last, texp, tmap, rows.
  cbn [size data]. f_equal. f_equal.
  rewrite chunks_map, !map_map.
  apply map_ext_in. intros r Hin.
  apply stable_row_naive.
  pose proof (rows_Forall_length x Hw) as HF.
  rewrite Forall_forall in HF. specialize (HF r Hin).
  destruct r; [simpl in HF; lia | discriminate].
Qed.

(** ** [LossFn_Mol] on valid inputs *)

Lemma half_bin_valid (num_classes : Z) :
  (2 <= num_classes)%Z ->
  half_bin num_classes = Ok (1 / IZR (num_classes - 1)).
Proof.
  intros H. unfold half_bin.
  replace (num_classes - 1 =? 0)%Z with false
    by (symmetry; apply Z.eqb_neq; lia).
  reflexivity.
Qed.

Lemma row_log_softmax_length (r : list R) :
  length (row_log_softmax r) = length r.
Proof. apply length_map. Qed.

Lemma log_softmax_sized (s : list nat) (t : tensor) :
  sized s t -> sized s (log_softmax t).
Proof.
  intros Hs. pose proof (sized_wf _ _ Hs) as Hw. destruct Hs as [Hs Hl].
  split; [exact Hs|]. simpl.
  rewrite (length_concat_const (last_dim (size t))).
  - rewrite length_map, rows_length, numel_front_last, <- Hs. reflexivity.
  - apply Forall_map. eapply Forall_impl; [|apply rows_Forall_length, Hw].
    simpl. intros r Hr. rewrite row_log_softmax_length. exact Hr.
Qed.

(** The size of the three slices and of the expanded target. *)
Definition mixture_size (y_hat : tensor) : list nat :=
  front (size y_hat) ++ [(last_dim (size y_hat) / 3)%nat].

Lemma valid_input_locals (y_hat y : tensor) (num_classes : Z)
    (log_scale_min : option R) :
  valid_input y_hat y num_classes ->
  let nr_mix := (last_dim (size y_hat) / 3)%nat in
  let lsm := match log_scale_min with None => min_value | Some v => v end in
  exists L y',
    LossFn_Mol_locals y_hat y num_classes log_scale_min = Ok L /\
    expand_as y (slice_last nr_mix (2 * nr_mix) y_hat) = Ok y' /\
    logit_probs L = slice_last 0 nr_mix y_hat /\
    means L = slice_last nr_mix (2 * nr_mix) y_hat /\
    log_scales L =
      clamp_min lsm (slice_last (2 * nr_mix) (3 * nr_mix) y_hat) /\
    y_expanded L = y' /\
    sized (mixture_size y_hat) (logit_probs L) /\
    sized (mixture_size y_hat) (log_probs L) /\
    forall i, (i < numel (mixture_size y_hat))%nat ->
      pointwise L (1 / IZR (num_classes - 1)) i.
Proof.
  intros (Hw & Hwy & Hd & Hm & Hc & Hb & Hn) nr_mix lsm.
  assert (HC : last_dim (size y_hat) = (3 * nr_mix)%nat)
    by (apply Nat.Div0.div_exact; exact Hm).
  assert (H0 : sized (mixture_size y_hat) (slice_last 0 nr_mix y_hat)).
  { unfold mixture_size. fold nr_mix.
    replace nr_mix with (nr_mix - 0)%nat at 1 by lia.
    apply slice_last_sized; [exact Hw | lia | lia]. }
  assert (H1 : sized (mixture_size y_hat)
                 (slice_last nr_mix (2 * nr_mix) y_hat)).
  { unfold mixture_size. fold nr_mix.
    replace nr_mix with (2 * nr_mix - nr_mix)%nat at 1 by lia.
    apply slice_last_sized; [exact Hw | lia | lia]. }
  assert (H2 : sized (mixture_size y_hat)
                 (slice_last (2 * nr_mix) (3 * nr_mix) y_hat)).
  { unfold mixture_size. fold nr_mix.
    replace nr_mix with (3 * nr_mix - 2 * nr_mix)%nat at 1 by lia.
    apply slice_last_sized; [exact Hw | lia | lia]. }
  destruct (expand_sized y (mixture_size y_hat) Hwy Hb) as (y' & Ey & Hy').
  assert (Ey' : expand_as y (slice_last nr_mix (2 * nr_mix) y_hat) = Ok y').
  { unfold expand_as. destruct H1 as [-> _]. exact Ey. }
  destruct (LossFn_Mol_locals_run y_hat y num_classes log_scale_min
              (mixture_size y_hat) y' (1 / IZR (num_classes - 1))
              Hd Hm H0 H1 H2 Ey' Hy' (half_bin_valid _ Hn))
    as (L & EL & E1 & E2 & E3 & E4 & Hlp & Hpw).
  exists L, y'. repeat (split; [assumption|]).
  split; [rewrite E1; exact H0|]. split; assumption.
Qed.

(** The mixture log-likelihoods before [log_sum_exp] (line 76). *)
Definition mixture_log_probs (L : locals) : tensor :=
  mkTensor (size (log_probs L))
    (zipWith Rplus (data (log_probs L))
       (data (log_softmax (logit_probs L)))).

Lemma valid_input_loss (y_hat y : tensor) (num_classes : Z)
    (log_scale_min : option R) (reduce : bool) :
  valid_input y_hat y num_classes ->
  exists L,
    LossFn_Mol_locals y_hat y num_classes log_scale_min = Ok L /\
    sized (mixture_size y_hat) (mixture_log_probs L) /\
    LossFn_Mol y_hat y num_classes log_scale_min reduce =
    let l := mkTensor (front (mixture_size y_hat))
               (map stable_row (rows (mixture_log_probs L))) in
    Ok (if reduce then neg (mean l) else neg (unsqueeze_last l)).
Proof.
  intros Hv.
  destruct (valid_input_locals y_hat y num_classes log_scale_min Hv)
    as (L & y' & EL & _ & _ & _ & _ & _ & Hlg & Hlp & _).
  destruct Hv as (Hw & Hwy & Hd & Hm & Hc & Hb & Hn).
  assert (HC : last_dim (size y_hat) = (3 * (last_dim (size y_hat) / 3))%nat)
    by (apply Nat.Div0.div_exact; exact Hm).
  pose proof (log_softmax_sized _ _ Hlg) as Hsm.
  assert (Hs : sized (mixture_size y_hat) (mixture_log_probs L)).
  { destruct Hlp as [Hs Hl]. destruct Hsm as [Hs' Hl'].
    split; unfold mixture_log_probs; cbn [size data]; [exact Hs|].
    rewrite zipWith_length, Hl, Hl'. apply Nat.min_id. }
  exists L. split; [exact EL|]. split; [exact Hs|].
  unfold LossFn_Mol. rewrite EL. cbn [bind]. unfold add.
  rewrite tbin_same
    by (destruct Hlp as [-> _]; destruct Hsm as [-> _]; reflexivity).
  cbn [bind]. fold (mixture_log_probs L).
  rewrite log_sum_exp_rows.
  - destruct Hs as [-> _]. destruct reduce; reflexivity.
  - eapply sized_wf, Hs.
  - destruct Hs as [-> _]. unfold mixture_size. rewrite last_dim_app. lia.
Qed.

(** C8. On a valid input with [y_hat] of size [B, T, 3K], [LossFn_Mol]
    with [reduce=False] returns a tensor of size [B, T, 1], and with
    [reduce=True] a 0-dim tensor (a scalar). *)
Theorem LossFn_Mol_output_shape (B T K : nat) (y_hat y : tensor)
    (num_classes : Z) (log_scale_min : option R) :
  valid_input y_hat y num_classes ->
  size y_hat = [B; T; (3 * K)%nat] ->
  (exists t, LossFn_Mol y_hat y num_classes log_scale_min false = Ok t /\
             size t = [B; T; 1%nat] /\ wf t) /\
  (exists t, LossFn_Mol y_hat y num_classes log_scale_min true = Ok t /\
             size t = [] /\ wf t).
Proof.
  intros Hv Hs.
  assert (Hf : front (mixture_size y_hat) = [B; T]).
  { unfold mixture_size. rewrite front_app, Hs. reflexivity. }
  split.
  - destruct (valid_input_loss y_hat y num_classes log_scale_min false Hv)
      as (L & _ & [HL _] & E).
    eexists. split; [exact E|]. cbn zeta. split.
    + simpl. rewrite Hf. reflexivity.
    + unfold wf. simpl. rewrite !length_map, rows_length, HL, Hf. simpl.
      lia.
  - destruct (valid_input_loss y_hat y num_classes log_scale_min true Hv)
      as (L & _ & _ & E).
    eexists. split; [exact E|]. split; reflexivity.
Qed.

(** C4. On every valid input the call with [reduce=False] returns a tensor,
    and the call with [reduce=True] returns the mean over all elements of
    that tensor with its trailing axis squeezed. *)
Theorem LossFn_Mol_reduce_is_mean (y_hat y : tensor) (num_classes : Z)
    (log_scale_min : option R) :
  valid_input y_hat y num_classes ->
  exists t,
    LossFn_Mol y_hat y num_classes log_scale_min false = Ok t /\
    LossFn_Mol y_hat y num_classes log_scale_min true =
      Ok (mean (squeeze_last t)).
Proof.
  intros Hv.
  destruct (valid_input_loss y_hat y num_classes log_scale_min false Hv)
    as (L & _ & _ & E).
  eexists. split; [exact E|].
  rewrite LossFn_Mol_reduce_bind, E. reflexivity.
Qed.

(** ** The mixing logits enter the loss through their log-softmax only *)

Lemma bind_assoc {A B C : Type} (m : result A) (k : A -> result B)
    (k' : B -> result C) :
  bind (bind m k) k' = bind m (fun a => bind (k a) k').
Proof. destruct m; reflexivity. Qed.

Ltac bind_step :=
  rewrite ?bind_assoc; apply bind_ext; intros ? _; cbv beta.

Lemma LossFn_Mol_logits (y_hat y_hat' y : tensor) (num_classes : Z)
    (log_scale_min : option R) (reduce : bool) :
  let nr_mix := (last_dim (size y_hat) / 3)%nat in
  size y_hat' = size y_hat ->
  slice_last nr_mix (2 * nr_mix) y_hat' =
    slice_last nr_mix (2 * nr_mix) y_hat ->
  slice_last (2 * nr_mix) (3 * nr_mix) y_hat' =
    slice_last (2 * nr_mix) (3 * nr_mix) y_hat ->
  log_softmax (slice_last 0 nr_mix y_hat') =
    log_softmax (slice_last 0 nr_mix y_hat) ->
  LossFn_Mol y_hat' y num_classes log_scale_min reduce =
  LossFn_Mol y_hat y num_classes log_scale_min reduce.
Proof.
  intros nr_mix Hs Hmn Hls Hlp.
  unfold LossFn_Mol, LossFn_Mol_locals, dim. cbv zeta.
  rewrite Hs. fold nr_mix. rewrite Hmn, Hls.
  repeat bind_step.
  cbn [bind log_probs logit_probs]. rewrite Hlp. reflexivity.
Qed.

Lemma row_sum_exp_add (c : R) (r : list R) :
  row_sum (map exp (map (fun v => v + c) r)) = exp c * row_sum (map exp r).
Proof.
  induction r as [|x r IH]; simpl; [ring|].
  rewrite IH, exp_plus. ring.
Qed.

Lemma row_log_softmax_shift (c : R) (r : list R) :
  row_log_softmax (map (fun v => v + c) r) = row_log_softmax r.
Proof.
  destruct r as [|x r]; [reflexivity|].
  unfold row_log_softmax. rewrite map_map. apply map_ext. intros v.
  rewrite row_sum_exp_add.
  rewrite ln_mult by (try apply exp_pos; apply row_sum_exp_pos; discriminate).
  rewrite ln_exp. ring.
Qed.

Lemma log_softmax_shift (c : R) (t : tensor) :
  log_softmax (tmap (fun v => v + c) t) = log_softmax t.
Proof.
  unfold log_softmax, rows, tmap. cbn [size data].
  rewrite chunks_map, map_map. f_equal. f_equal.
  apply map_ext. intros r. apply row_log_softmax_shift.
Qed.

(** The rows and the slices of [shift_logits]. *)
Definition shift_row (c : R) (k : nat) (r : list R) : list R :=
  map (fun v => v + c) (firstn k r) ++ skipn k r.

Lemma shift_row_length (c : R) (k : nat) (r : list R) :
  length (shift_row c k r) = length r.
Proof.
  unfold shift_row. rewrite length_app, length_map.
  rewrite <- length_app, firstn_skipn. reflexivity.
Qed.

Lemma rows_shift_logits (c : R) (t : tensor) :
  wf t ->
  rows (shift_logits c t) =
  map (shift_row c (last_dim (size t) / 3)) (rows t).
Proof.
  intros Hw. unfold rows at 1. unfold shift_logits. cbn [size data].
  fold (shift_row c (last_dim (size t) / 3)).
  rewrite <- (rows_length t).
  replace (length (rows t))
    with (length (map (shift_row c (last_dim (size t) / 3)) (rows t)))
    by apply length_map.
  apply chunks_concat. apply Forall_map.
  eapply Forall_impl; [|apply rows_Forall_length, Hw].
  simpl. intros r Hr. rewrite shift_row_length. exact Hr.
Qed.

Lemma slice_shift_logits_rest (c : R) (lo hi : nat) (t : tensor) :
  wf t -> (last_dim (size t) / 3 <= lo)%nat ->
  slice_last lo hi (shift_logits c t) = slice_last lo hi t.
Proof.
  intros Hw Hlo. unfold slice_last. rewrite rows_shift_logits by exact Hw.
  cbn [size shift_logits]. f_equal. f_equal. rewrite map_map.
  apply map_ext_in. intros r Hin.
  pose proof (rows_Forall_length t Hw) as HF.
  rewrite Forall_forall in HF. specialize (HF r Hin).
  set (k := (last_dim (size t) / 3)%nat) in *.
  set (C := last_dim (size t)) in *.
  assert (Hk : (k <= C)%nat) by (apply Nat.Div0.div_le_upper_bound; lia).
  f_equal. unfold shift_row.
  rewrite skipn_app, length_map, length_firstn.
  rewrite (skipn_all2 (map _ _))
    by (rewrite length_map, length_firstn; lia).
  simpl. rewrite skipn_skipn. f_equal. lia.
Qed.

Lemma slice_shift_logits_head (c : R) (t : tensor) :
  wf t ->
  slice_last 0 (last_dim (size t) / 3) (shift_logits c t) =
  tmap (fun v => v + c) (slice_last 0 (last_dim (size t) / 3) t).
Proof.
  intros Hw. unfold slice_last, tmap. rewrite rows_shift_logits by exact Hw.
  cbn [size data shift_logits]. f_equal.
  rewrite concat_map, !map_map. f_equal.
  apply map_ext_in. intros r Hin.
  pose proof (rows_Forall_length t Hw) as HF.
  rewrite Forall_forall in HF. specialize (HF r Hin).
  set (k := (last_dim (size t) / 3)%nat) in *.
  set (C := last_dim (size t)) in *.
  assert (Hk : (k <= C)%nat) by (apply Nat.Div0.div_le_upper_bound; lia).
  rewrite Nat.min_0_l, (Nat.min_l k C), Nat.max_r, Nat.sub_0_r by lia.
  simpl skipn. unfold shift_row.
  rewrite firstn_app, length_map, length_firstn.
  replace (k - Nat.min k (length r))%nat with 0%nat by lia.
  rewrite firstn_O, app_nil_r, firstn_all2
    by (rewrite length_map, length_firstn; lia).
  reflexivity.
Qed.

Lemma LossFn_Mol_shift_eq (c : R) (y_hat y : tensor)
    (num_classes : Z) (log_scale_min : option R) (reduce : bool) :
  wf y_hat ->
  LossFn_Mol (shift_logits c y_hat) y num_classes log_scale_min reduce =
  LossFn_Mol y_hat y num_classes log_scale_min reduce.
Proof.
  intros Hw. apply LossFn_Mol_logits.
  - reflexivity.
  - apply slice_shift_logits_rest; [exact Hw | lia].
  - apply slice_shift_logits_rest; [exact Hw | lia].
  - rewrite slice_shift_logits_head by exact Hw. apply log_softmax_shift.
Qed.

(** C5. On every valid input, adding one constant [c] to all the mixing
    logits of [y_hat], at every (batch, time) position, leaves the output
    of [LossFn_Mol] unchanged. *)
Theorem LossFn_Mol_logit_shift_invariant (c : R) (y_hat y : tensor)
    (num_classes : Z) (log_scale_min : option R) (reduce : bool) :
  valid_input y_hat y num_classes ->
  exists t,
    LossFn_Mol y_hat y num_classes log_scale_min reduce = Ok t /\
    LossFn_Mol (shift_logits c y_hat) y num_classes log_scale_min reduce =
      Ok t.
Proof.
  intros Hv.
  destruct (valid_input_loss y_hat y num_classes log_scale_min reduce Hv)
    as (L & _ & _ & E).
  eexists. split; [exact E|].
  rewrite LossFn_Mol_shift_eq by apply Hv. exact E.
Qed.

(** ** A single mixture component *)

Lemma row_slice_ext (lo hi : nat) (r r' : list R) :
  length r' = length r ->
  (forall j, (lo <= j < hi)%nat -> nth j r' 0 = nth j r 0) ->
  firstn (hi - lo) (skipn lo r') = firstn (hi - lo) (skipn lo r).
Proof.
  intros Hl H. apply (nth_ext _ _ 0 0).
  - rewrite !length_firstn, !length_skipn, Hl. reflexivity.
  - intros k Hk. rewrite length_firstn in Hk.
    rewrite !nth_firstn.
    destruct (k <? hi - lo)%nat eqn:E; [|reflexivity].
    apply Nat.ltb_lt in E. rewrite !nth_skipn. apply H. lia.
Qed.

Lemma chunks_slice_ext (c n lo hi : nat) (d d' : list R) :
  (0 < c)%nat -> length d = (n * c)%nat -> length d' = (n * c)%nat ->
  (forall i, (lo <= i mod c < hi)%nat -> nth i d' 0 = nth i d 0) ->
  map (fun r => firstn (hi - lo) (skipn lo r)) (chunks c n d') =
  map (fun r => firstn (hi - lo) (skipn lo r)) (chunks c n d).
Proof.
  intros Hc. revert d d'. induction n as [|n IH]; intros d d' Hd Hd' H;
    simpl; [reflexivity|].
  f_equal.
  - apply row_slice_ext.
    + rewrite !length_firstn. lia.
    + intros j Hj. rewrite !nth_firstn.
      destruct (j <? c)%nat eqn:E; [|reflexivity].
      apply Nat.ltb_lt in E. apply H. rewrite Nat.mod_small by exact E.
      exact Hj.
  - apply IH; try (rewrite length_skipn; lia).
    intros i Hi. rewrite !nth_skipn. apply H.
    replace (c + i)%nat with (i + 1 * c)%nat by lia.
    rewrite Nat.Div0.mod_add. exact Hi.
Qed.

Lemma slice_last_ext (lo hi : nat) (t t' : tensor) :
  wf t -> wf t' -> size t' = size t -> (0 < last_dim (size t))%nat ->
  (forall i, (Nat.min lo (last_dim (size t)) <= i mod last_dim (size t)
              < Nat.max (Nat.min lo (last_dim (size t)))
                        (Nat.min hi (last_dim (size t))))%nat ->
             elt t' i = elt t i) ->
  slice_last lo hi t' = slice_last lo hi t.
Proof.
  intros Hw Hw' Hs Hc H. unfold slice_last, rows. rewrite Hs.
  f_equal. f_equal.
  apply chunks_slice_ext; try assumption.
  - rewrite numel_front_last. exact Hw.
  - rewrite numel_front_last, <- Hs. exact Hw'.
Qed.

Lemma map_const {A B : Type} (f : A -> B) (b : B) (l : list A) :
  (forall a, In a l -> f a = b) -> map f l = repeat b (length l).
Proof.
  induction l as [|a l IH]; simpl; intros H; [reflexivity|].
  rewrite H by (left; reflexivity). rewrite IH by auto. reflexivity.
Qed.

Lemma row_log_softmax_single (v : R) : row_log_softmax [v] = [0].
Proof.
  unfold row_log_softmax. simpl. rewrite Rplus_0_r, ln_exp.
  f_equal. ring.
Qed.

(** The log-softmax over a last axis of length 1 is zero everywhere. *)
Lemma log_softmax_single (t : tensor) :
  wf t -> last_dim (size t) = 1%nat ->
  log_softmax t =
  mkTensor (size t) (concat (repeat [0] (numel (front (size t))))).
Proof.
  intros Hw H1. unfold log_softmax. f_equal. f_equal.
  rewrite <- (rows_length t). apply map_const.
  intros r Hin. pose proof (rows_Forall_length t Hw) as HF.
  rewrite Forall_forall in HF. specialize (HF r Hin). rewrite H1 in HF.
  destruct r as [|v [|w r]]; simpl in HF; try discriminate.
  apply row_log_softmax_single.
Qed.

(** C10. With a single mixture component (last axis of [y_hat] of size 3),
    the output of [LossFn_Mol] does not depend on the mixing logit: two
    valid calls whose [y_hat] agree on the means and the log-scales (the
    storage positions that are not multiples of 3) return the same
    output. *)
Theorem LossFn_Mol_single_component (y_hat y_hat' y : tensor)
    (num_classes : Z) (log_scale_min : option R) (reduce : bool) :
  valid_input y_hat y num_classes ->
  wf y_hat' ->
  size y_hat' = size y_hat ->
  last_dim (size y_hat) = 3%nat ->
  (forall i, (i mod 3 <> 0)%nat -> elt y_hat' i = elt y_hat i) ->
  exists t,
    LossFn_Mol y_hat y num_classes log_scale_min reduce = Ok t /\
    LossFn_Mol y_hat' y num_classes log_scale_min reduce = Ok t.
Proof.
  intros Hv Hw' Hs H3 H.
  destruct (valid_input_loss y_hat y num_classes log_scale_min reduce Hv)
    as (L & _ & _ & E).
  eexists. split; [exact E|]. etransitivity; [|exact E].
  assert (Hw : wf y_hat) by apply Hv.
  apply LossFn_Mol_logits; rewrite ?H3; try exact Hs;
    change (3 / 3)%nat with 1%nat.
  - apply slice_last_ext; try assumption; [lia|].
    rewrite H3. intros i Hi. apply H. revert Hi.
    generalize (i mod 3)%nat. simpl. lia.
  - apply slice_last_ext; try assumption; [lia|].
    rewrite H3. intros i Hi. apply H. revert Hi.
    generalize (i mod 3)%nat. simpl. lia.
  - assert (S1 : sized (front (size y_hat) ++ [(1 - 0)%nat])
                   (slice_last 0 1 y_hat))
      by (apply slice_last_sized; [exact Hw | lia | lia]).
    assert (S1' : sized (front (size y_hat') ++ [(1 - 0)%nat])
                    (slice_last 0 1 y_hat'))
      by (apply slice_last_sized; [exact Hw' | lia | rewrite Hs; lia]).
    rewrite Hs in S1'.
    rewrite !log_softmax_single;
      try (eapply sized_wf; eassumption);
      try (destruct S1 as [-> _]; apply last_dim_app);
      try (destruct S1' as [-> _]; apply last_dim_app).
    destruct S1 as [-> _]. destruct S1' as [-> _]. reflexivity.
Qed.

(** ** The selection of the per-element log-probability (lines 64 to 73) *)

Lemma indicator_gt_true (c x : R) : c < x -> indicator_gt c x = 1.
Proof. intros H. unfold indicator_gt. destruct (Rlt_dec c x); tauto. Qed.

Lemma indicator_gt_false (c x : R) : ~ c < x -> indicator_gt c x = 0.
Proof. intros H. unfold indicator_gt. destruct (Rlt_dec c x); tauto. Qed.

Lemma indicator_lt_true (c x : R) : x < c -> indicator_lt c x = 1.
Proof. intros H. unfold indicator_lt. destruct (Rlt_dec x c); tauto. Qed.

Lemma indicator_lt_false (c x : R) : ~ x < c -> indicator_lt c x = 0.
Proof. intros H. unfold indicator_lt. destruct (Rlt_dec x c); tauto. Qed.

(** At a target above 0.999 the selected value is [log_one_minus_cdf_min]. *)
Lemma pointwise_high (L : locals) (h : R) (i : nat) :
  pointwise L h i -> 0.999 < elt (y_expanded L) i ->
  elt (log_probs L) i = elt (log_one_minus_cdf_min L) i.
Proof.
  intros P Hy.
  rewrite (pw_log_probs _ _ _ P), (pw_cond _ _ _ P), (pw_inner_out _ _ _ P),
    (pw_inner_cond _ _ _ P).
  rewrite indicator_gt_true by exact Hy.
  rewrite indicator_lt_false by lra. ring.
Qed.

(** At a target below -0.999 the selected value is [log_cdf_plus]. *)
Lemma pointwise_low (L : locals) (h : R) (i : nat) :
  pointwise L h i -> elt (y_expanded L) i < -0.999 ->
  elt (log_probs L) i = elt (log_cdf_plus L) i.
Proof.
  intros P Hy.
  rewrite (pw_log_probs _ _ _ P), (pw_cond _ _ _ P).
  rewrite indicator_lt_true by exact Hy. ring.
Qed.

(** At an interior target whose [cdf_delta] is not above 1e-5 the selected
    value is [log_pdf_mid] minus the literal [tmp], whatever [num_classes]
    is. *)
Lemma pointwise_fallback (L : locals) (h : R) (i : nat) :
  pointwise L h i ->
  -0.999 <= elt (y_expanded L) i <= 0.999 ->
  ~ 1e-5 < elt (cdf_delta L) i ->
  elt (inner_inner_out L) i = elt (log_pdf_mid L) i - tmp /\
  elt (log_probs L) i = elt (log_pdf_mid L) i - tmp.
Proof.
  intros P Hy Hd.
  assert (E : elt (inner_inner_out L) i = elt (log_pdf_mid L) i - tmp).
  { rewrite (pw_inner_inner_out _ _ _ P), (pw_inner_inner_cond _ _ _ P).
    rewrite indicator_gt_false by exact Hd. ring. }
  split; [exact E|].
  rewrite (pw_log_probs _ _ _ P), (pw_cond _ _ _ P), (pw_inner_out _ _ _ P),
    (pw_inner_cond _ _ _ P), E.
  rewrite indicator_gt_false by lra.
  rewrite indicator_lt_false by lra. ring.
Qed.


(** ** The constant of the fallback branch *)

Lemma sigmoid_gap (a : R) : 0 <= a < 1 -> sigmoid a - sigmoid (- a) <= a.
Proof.
  intros Ha. unfold sigmoid. rewrite Ropp_involutive.
  pose proof (exp_pos a) as HE. pose proof (exp_pos (- a)) as Hu.
  pose proof (exp_ineq1_le (- a)) as H1.
  assert (HEu : exp a * exp (- a) = 1)
    by (rewrite <- exp_plus, Rplus_opp_r; apply exp_0).
  set (E := exp a) in *. set (u := exp (- a)) in *.
  assert (Hd : 1 / (1 + u) - 1 / (1 + E) = (E - u) / ((1 + u) * (1 + E)))
    by (field; lra).
  rewrite Hd.
  assert (Hp : 0 < (1 + u) * (1 + E)) by nra.
  apply (Rmult_le_reg_r ((1 + u) * (1 + E))); [exact Hp|].
  unfold Rdiv. rewrite Rmult_assoc, Rinv_l by lra.
  nra.
Qed.

Lemma exp_20_lower : 1296 <= exp 20.
Proof.
  assert (E : exp 20 = exp 5 * exp 5 * exp 5 * exp 5).
  { rewrite <- !exp_plus. f_equal. lra. }
  rewrite E. pose proof (exp_ineq1_le 5).
  assert (36 <= exp 5 * exp 5) by nra. nra.
Qed.

Lemma exp_10_lower : 150 <= exp 10.
Proof.
  assert (E : exp 10 = exp 2.5 * exp 2.5 * exp 2.5 * exp 2.5).
  { rewrite <- !exp_plus. f_equal. lra. }
  rewrite E. pose proof (exp_ineq1_le 2.5).
  assert (12.25 <= exp 2.5 * exp 2.5) by nra. nra.
Qed.

(** The literal is not log((256 - 1) / 2): exp(10) is already above 127.5. *)
Lemma tmp_not_log_255 : tmp <> ln ((IZR 256 - 1) / 2).
Proof.
  intros E.
  assert (H : exp tmp = (IZR 256 - 1) / 2) by (rewrite E; apply exp_ln; lra).
  assert (H10 : exp 10 < exp tmp) by (apply exp_increasing; unfold tmp; lra).
  pose proof exp_10_lower. lra.
Qed.

(** One position, one wide mixture component centred on the target, and
    256 quantization levels. *)
Definition y_hat_fallback : tensor := mkTensor [1; 1; 3]%nat [0; 0; 20].
Definition y_fallback : tensor := mkTensor [1; 1; 1]%nat [0].

Lemma fallback_input_valid : valid_input y_hat_fallback y_fallback 256.
Proof.
  unfold valid_input, wf, dim, last_dim. simpl.
  repeat split; try reflexivity; lia.
Qed.

(** C1. With [num_classes = 256], at a position where [cdf_delta > 1e-5]
    is false, the log-probability the code selects is [log_pdf_mid] minus
    the literal 10.397192449493701 (log(65535 / 2)), and that is not
    [log_pdf_mid - log((256 - 1) / 2)]: the constant does not follow
    [num_classes]. *)
Theorem LossFn_Mol_fallback_constant_fixed :
  exists L,
    LossFn_Mol_locals y_hat_fallback y_fallback 256 None = Ok L /\
    ~ 1e-5 < elt (cdf_delta L) 0 /\
    elt (inner_inner_out L) 0 = elt (log_pdf_mid L) 0 - tmp /\
    elt (log_probs L) 0 = elt (log_pdf_mid L) 0 - tmp /\
    elt (log_probs L) 0 <> elt (log_pdf_mid L) 0 - ln ((IZR 256 - 1) / 2).
Proof.
  destruct (valid_input_locals _ _ _ None fallback_input_valid)
    as (L & y' & EL & Ey & _ & Emn & Els & Eye & _ & _ & Hpw).
  assert (Hy' : y' = y_fallback).
  { assert (E : expand_as y_fallback
                  (slice_last (last_dim (size y_hat_fallback) / 3)
                     (2 * (last_dim (size y_hat_fallback) / 3))
                     y_hat_fallback) = Ok y_fallback) by reflexivity.
    rewrite E in Ey. injection Ey as <-. reflexivity. }
  specialize (Hpw 0%nat (Nat.lt_0_1)).
  assert (Hyv : elt (y_expanded L) 0 = 0) by (rewrite Eye, Hy'; reflexivity).
  assert (Hmv : elt (means L) 0 = 0) by (rewrite Emn; reflexivity).
  assert (Hlv : elt (log_scales L) 0 = Rmax 20 min_value)
    by (rewrite Els; reflexivity).
  assert (Hmax : Rmax 20 min_value = 20)
    by (apply Rmax_left; unfold min_value; lra).
  set (a := exp (- (20)) * (1 / 255)).
  assert (Hplus : elt (plus_in L) 0 = a).
  { rewrite (pw_plus_in _ _ _ Hpw), (pw_inv_stdv _ _ _ Hpw),
      (pw_centered_y _ _ _ Hpw), Hyv, Hmv, Hlv, Hmax.
    change (256 - 1)%Z with 255%Z. unfold a. ring. }
  assert (Hmin : elt (min_in L) 0 = - a).
  { rewrite (pw_min_in _ _ _ Hpw), (pw_inv_stdv _ _ _ Hpw),
      (pw_centered_y _ _ _ Hpw), Hyv, Hmv, Hlv, Hmax.
    change (256 - 1)%Z with 255%Z. unfold a. ring. }
  assert (Ha : 0 <= a <= 1e-5).
  { unfold a. rewrite exp_Ropp.
    pose proof exp_20_lower as H20.
    assert (H0 : 0 < / exp 20) by (apply Rinv_0_lt_compat; lra).
    assert (H1 : / exp 20 <= / 1296)
      by (apply Rinv_le_contravar; lra).
    lra. }
  assert (Hdelta : ~ 1e-5 < elt (cdf_delta L) 0).
  { rewrite (pw_cdf_delta _ _ _ Hpw), (pw_cdf_plus _ _ _ Hpw),
      (pw_cdf_min _ _ _ Hpw), Hplus, Hmin.
    pose proof (sigmoid_gap a). lra. }
  destruct (pointwise_fallback L _ 0%nat Hpw) as [E1 E2];
    [rewrite Hyv; lra | exact Hdelta |].
  exists L. repeat (split; [assumption|]).
  rewrite E2. pose proof tmp_not_log_255. lra.
Qed.

(** ** The mode dispatch of the training and evaluation loops *)

Import wavernn.

Lemma transpose_1_2_avoids (t : tensor) :
  avoids mode_error (transpose_1_2 t).
Proof.
  unfold transpose_1_2. destruct (size t) as [|b [|c [|n rest]]];
    first [apply avoids_ok | apply avoids_other; discriminate].
Qed.

Lemma item_avoids (t : tensor) : avoids mode_error (item t).
Proof.
  unfold item. destruct (data t) as [|v [|w l]];
    first [apply avoids_ok | apply avoids_other; discriminate].
Qed.

Lemma div_len_avoids (total : R) (n : nat) :
  avoids mode_error (div_len total n).
Proof.
  destruct n; [apply avoids_other; discriminate | apply avoids_ok].
Qed.

Lemma for_each_avoids {S B : Type} (e : exn) (body : S -> B -> result S)
    (l : list B) :
  (forall st b, avoids e (body st b)) ->
  forall st, avoids e (for_each body st l).
Proof.
  intros Hb. induction l as [|b l IH]; intros st; simpl.
  - apply avoids_ok.
  - apply avoids_bind; [apply Hb | exact IH].
Qed.

(** A recognised mode tag selects a branch that does not raise the mode
    error. *)
Lemma dispatch_avoids (md : string) (y_hat y : tensor) :
  md = "RAW"%string \/ md = "MOL"%string ->
  avoids mode_error
    (if String.eqb md "RAW" then
       y_hat' <- transpose_1_2 y_hat ;; Ok (y_hat', y)
     else if String.eqb md "MOL" then Ok (y_hat, unsqueeze_last y)
     else Raise mode_error).
Proof.
  intros [-> | ->]; simpl.
  - apply avoids_bind; [apply transpose_1_2_avoids|].
    intros a. apply avoids_ok.
  - apply avoids_ok.
Qed.

(** An unrecognised mode tag selects the raising branch. *)
Lemma dispatch_rejects (md : string) (y_hat y : tensor) :
  md <> "RAW"%string -> md <> "MOL"%string ->
  (if String.eqb md "RAW" then
     y_hat' <- transpose_1_2 y_hat ;; Ok (y_hat', y)
   else if String.eqb md "MOL" then Ok (y_hat, unsqueeze_last y)
   else Raise mode_error) = Raise mode_error.
Proof.
  intros H1 H2.
  apply String.eqb_neq in H1, H2. rewrite H1, H2. reflexivity.
Qed.

(** C9. In both loops, with a mode tag other than "RAW" and "MOL" a batch
    on which the model's forward pass returns raises the mode ValueError,
    whatever the criterion is (no loss is computed), and so does the epoch
    that starts with it.  With a mode tag among the two, neither loop
    raises that error, as long as the collaborators do not raise it
    themselves. *)
Theorem loops_mode_dispatch {Params : Type} (tr : trainer Params) :
  (mode tr <> "RAW"%string -> mode tr <> "MOL"%string ->
   forall p sums x m y rest y_hat,
     forward tr p x m = Ok y_hat ->
     train_batch tr (p, sums) (x, m, y) = Raise mode_error /\
     evaluate_batch tr p sums (x, m, y) = Raise mode_error /\
     train_one_epoch tr p ((x, m, y) :: rest) = Raise mode_error /\
     evaluate tr p ((x, m, y) :: rest) = Raise mode_error) /\
  (mode tr = "RAW"%string \/ mode tr = "MOL"%string ->
   (forall p x m, avoids mode_error (forward tr p x m)) ->
   (forall a b, avoids mode_error (criterion tr a b)) ->
   (forall p l, avoids mode_error (backward tr p l)) ->
   (forall p c, avoids mode_error (clip_grad_norm tr p c)) ->
   (forall p, avoids mode_error (step tr p)) ->
   forall p data_loader,
     avoids mode_error (train_one_epoch tr p data_loader) /\
     avoids mode_error (evaluate tr p data_loader)).
Proof.
  split.
  - intros H1 H2 p sums x m y rest y_hat Hf.
    assert (Ht : forall s, train_batch tr (p, s) (x, m, y) = Raise mode_error).
    { intros s. unfold train_batch. rewrite Hf. cbn [bind].
      rewrite dispatch_rejects by assumption. reflexivity. }
    assert (He : forall s, evaluate_batch tr p s (x, m, y) = Raise mode_error).
    { intros s. unfold evaluate_batch. rewrite Hf. cbn [bind].
      rewrite dispatch_rejects by assumption. reflexivity. }
    repeat split.
    + apply Ht.
    + apply He.
    + unfold train_one_epoch. cbn [for_each]. rewrite Ht. reflexivity.
    + unfold evaluate. cbn [for_each]. rewrite He. reflexivity.
  - intros Hm Hf Hc Hb Hg Hs p data_loader. split.
    + unfold train_one_epoch.
      apply avoids_bind.
      * apply for_each_avoids. intros [p' s] [[x m] y]. unfold train_batch.
        apply avoids_bind; [apply Hf | intros y_hat].
        apply avoids_bind; [apply dispatch_avoids, Hm | intros yy].
        apply avoids_bind; [apply Hc | intros loss].
        apply avoids_bind; [apply item_avoids | intros l].
        apply avoids_bind; [apply Hb | intros p1].
        apply avoids_bind; [|intros st].
        { destruct (Rlt_dec 0 (clip_norm tr)); [|apply avoids_ok].
          apply avoids_bind; [apply Hg | intros pn]. apply avoids_ok. }
        apply avoids_bind; [apply Hs | intros p2]. apply avoids_ok.
      * intros st. apply avoids_bind; [apply div_len_avoids | intros a].
        apply avoids_if; [|apply avoids_ok].
        apply avoids_bind; [apply div_len_avoids | intros g].
        apply avoids_ok.
    + unfold evaluate.
      apply avoids_bind; [|intros s; apply div_len_avoids].
      apply for_each_avoids. intros s [[x m] y]. unfold evaluate_batch.
      apply avoids_bind; [apply Hf | intros y_hat].
      apply avoids_bind; [apply dispatch_avoids, Hm | intros yy].
      apply avoids_bind; [apply Hc | intros loss].
      apply avoids_bind; [apply item_avoids | intros l]. apply avoids_ok.
Qed.

(** ** The properties on concrete inputs *)

(** Two mixture components at one position: logits 0 and 0, means -0.5 and
    0.5, log-scales -2 and -2; the target is 1.0 and broadcasts along the
    mixture axis. *)
Definition y_hat_example : tensor :=
  mkTensor [1; 1; 6]%nat [0; 0; -0.5; 0.5; -2; -2].
Definition y_example : tensor := mkTensor [1; 1; 1]%nat [1].

Lemma example_input_valid : valid_input y_hat_example y_example 256.
Proof.
  unfold valid_input, wf, dim, last_dim. simpl.
  repeat split; try reflexivity; lia.
Qed.

(** A matrix with two rows. *)
Definition x_example : tensor := mkTensor [2; 2]%nat [0; 1; 2; 3].

Lemma log_sum_exp_refines_naive_witness :
  log_sum_exp x_example = Ok (naive_log_sum_exp x_example).
Proof.
  apply (log_sum_exp_refines_naive x_example).
  - reflexivity.
  - unfold last_dim. simpl. lia.
Defined.

Lemma LossFn_Mol_reduce_is_mean_witness :
  exists t,
    LossFn_Mol y_hat_example y_example 256 None false = Ok t /\
    LossFn_Mol y_hat_example y_example 256 None true =
      Ok (mean (squeeze_last t)).
Proof.
  apply (LossFn_Mol_reduce_is_mean y_hat_example y_example 256 None).
  exact example_input_valid.
Defined.

Lemma LossFn_Mol_logit_shift_invariant_witness :
  exists t,
    LossFn_Mol y_hat_example y_example 256 None true = Ok t /\
    LossFn_Mol (shift_logits 3 y_hat_example) y_example 256 None true = Ok t.
Proof.
  apply (LossFn_Mol_logit_shift_invariant 3 y_hat_example y_example 256
           None true).
  exact example_input_valid.
Defined.


Lemma LossFn_Mol_output_shape_witness :
  (exists t, LossFn_Mol y_hat_example y_example 256 None false = Ok t /\
             size t = [1; 1; 1]%nat /\ wf t) /\
  (exists t, LossFn_Mol y_hat_example y_example 256 None true = Ok t /\
             size t = [] /\ wf t).
Proof.
  apply (LossFn_Mol_output_shape 1 1 2 y_hat_example y_example 256 None).
  - exact example_input_valid.
  - reflexivity.
Defined.

(** One mixture component, with two different mixing logits. *)
Definition y_hat_single : tensor := mkTensor [1; 1; 3]%nat [0; 0.25; -1].
Definition y_hat_single' : tensor := mkTensor [1; 1; 3]%nat [5; 0.25; -1].
Definition y_single : tensor := mkTensor [1; 1; 1]%nat [0.5].

Lemma single_input_valid : valid_input y_hat_single y_single 65536.
Proof.
  unfold valid_input, wf, dim, last_dim. simpl.
  repeat split; try reflexivity; lia.
Qed.

Lemma LossFn_Mol_single_component_witness :
  exists t,
    LossFn_Mol y_hat_single y_single 65536 None true = Ok t /\
    LossFn_Mol y_hat_single' y_single 65536 None true = Ok t.
Proof.
  apply (LossFn_Mol_single_component y_hat_single y_hat_single'
           y_single 65536 None true).
  - exact single_input_valid.
  - reflexivity.
  - reflexivity.
  - reflexivity.
  - intros [|[|[|[|i]]]] Hi; try reflexivity.
    simpl in Hi. lia.
Defined.

(** A trainer whose collaborators return at once. *)
Definition trainer_example (md : string) : trainer unit :=
  mkTrainer unit md (fun _ x _ => Ok x) (fun a _ => Ok (mean a))
    (fun p _ => Ok p) 0 (fun p _ => Ok (p, 0)) (fun p => Ok p).

Definition batch_example : batch := (x_example, x_example, x_example).

Lemma loops_mode_dispatch_witness :
  (train_one_epoch (trainer_example "CAT") tt [batch_example]
     = Raise mode_error /\
   evaluate (trainer_example "CAT") tt [batch_example] = Raise mode_error) /\
  (avoids mode_error
     (train_one_epoch (trainer_example "MOL") tt [batch_example]) /\
   avoids mode_error (evaluate (trainer_example "MOL") tt [batch_example])).
Proof.
  split.
  - destruct (proj1 (loops_mode_dispatch (trainer_example "CAT")))
      with (p := tt) (sums := @nil (string * R)) (x := x_example)
           (m := x_example) (y := x_example) (rest := @nil batch)
           (y_hat := x_example)
      as (_ & _ & Ht & He); try discriminate; try reflexivity.
    split; [exact Ht | exact He].
  - apply (proj2 (loops_mode_dispatch (trainer_example "MOL"))).
    + right. reflexivity.
    + intros p x m. discriminate.
    + intros a b. discriminate.
    + intros p l. discriminate.
    + intros p c. discriminate.
    + intros p. discriminate.
Defined.

(** * Further properties *)

(** ** [log_sum_exp]: the exponentials it takes *)

Lemma Rmaximum_ge (x : R) (l : list R) :
  x <= Rmaximum x l /\ Forall (fun v => v <= Rmaximum x l) l.
Proof.
  revert x. induction l as [|y l IH]; intros x; simpl.
  - split; [lra | constructor].
  - destruct (IH y) as [Hy Hl]. split; [apply Rmax_l|].
    constructor.
    + eapply Rle_trans; [exact Hy | apply Rmax_r].
    + eapply Forall_impl; [|exact Hl]. simpl. intros v Hv.
      eapply Rle_trans; [exact Hv | apply Rmax_r].
Qed.

Lemma Rmaximum_in (x : R) (l : list R) : In (Rmaximum x l) (x :: l).
Proof.
  revert x. induction l as [|y l IH]; intros x; simpl.
  - left. reflexivity.
  - unfold Rmax. destruct (Rle_dec x (Rmaximum y l)).
    + right. apply IH.
    + left. reflexivity.
Qed.

Lemma row_max_ge (r : list R) : Forall (fun v => v <= row_max r) r.
Proof.
  destruct r as [|x r]; [constructor|]. simpl.
  destruct (Rmaximum_ge x r) as [Hx Hr]. constructor; assumption.
Qed.

Lemma row_max_in (r : list R) : r <> [] -> In (row_max r) r.
Proof.
  destruct r as [|x r]; [congruence|]. intros _. apply Rmaximum_in.
Qed.

(** A row minus its maximum, as [x - m2] makes it. *)
Definition center_row (r : list R) : list R :=
  map (fun v => v - row_max r) r.

Lemma center_row_nonpos (r : list R) : Forall (fun v => v <= 0) (center_row r).
Proof.
  unfold center_row. apply Forall_map.
  eapply Forall_impl; [|apply row_max_ge]. simpl. intros v Hv. lra.
Qed.

Lemma center_row_zero (r : list R) : r <> [] -> In 0 (center_row r).
Proof.
  intros Hr. unfold center_row.
  replace 0 with (row_max r - row_max r) by ring.
  apply (in_map (fun v => v - row_max r)), row_max_in, Hr.
Qed.

Lemma exp_nonpos_le_1 (v : R) : v <= 0 -> exp v <= 1.
Proof.
  intros [H | ->]; [|rewrite exp_0; lra].
  rewrite <- exp_0. left. apply exp_increasing, H.
Qed.

Lemma row_sum_exp_nonneg (l : list R) : 0 <= row_sum (map exp l).
Proof.
  induction l as [|x l IH]; simpl; [lra|].
  pose proof (exp_pos x). lra.
Qed.

Lemma row_sum_exp_upper (l : list R) :
  Forall (fun v => v <= 0) l -> row_sum (map exp l) <= INR (length l).
Proof.
  induction 1 as [|x l Hx _ IH].
  - simpl. lra.
  - change (exp x + row_sum (map exp l) <= INR (S (length l))).
    rewrite S_INR. pose proof (exp_nonpos_le_1 x Hx). lra.
Qed.

Lemma row_sum_exp_lower (l : list R) : In 0 l -> 1 <= row_sum (map exp l).
Proof.
  induction l as [|x l IH]; simpl; [tauto|].
  intros [-> | H].
  - rewrite exp_0. pose proof (row_sum_exp_nonneg l). lra.
  - pose proof (exp_pos x). specialize (IH H). lra.
Qed.

Lemma sub_row_max (x : tensor) :
  wf x ->
  sub x (mkTensor (keep (size x)) (map row_max (rows x))) =
  Ok (mkTensor (size x) (concat (map center_row (rows x)))).
Proof.
  intros Hw. unfold sub.
  rewrite tbin_keepdim by (rewrite length_map; apply rows_length).
  f_equal. f_equal.
  rewrite <- (concat_rows x Hw) at 1.
  apply zipWith_rows_bcast, rows_Forall_length, Hw.
Qed.

Lemma rows_concat_map (x : tensor) (g : list R -> list R) :
  wf x -> (forall r, length (g r) = length r) ->
  rows (mkTensor (size x) (concat (map g (rows x)))) = map g (rows x).
Proof.
  intros Hw Hg. unfold rows at 1. cbn [size data].
  rewrite <- (rows_length x).
  replace (length (rows x)) with (length (map g (rows x)))
    by apply length_map.
  apply chunks_concat, Forall_map.
  eapply Forall_impl; [|apply rows_Forall_length, Hw].
  simpl. intros r Hr. rewrite Hg. exact Hr.
Qed.

Lemma rows_nonempty (x : tensor) :
  wf x -> (0 < last_dim (size x))%nat ->
  Forall (fun r => r <> []) (rows x).
Proof.
  intros Hw Hc. eapply Forall_impl; [|apply rows_Forall_length, Hw].
  simpl. intros r Hr ->. simpl in Hr. lia.
Qed.

(** X1. In [log_sum_exp] on a well-formed tensor with a non-empty last
    axis, the maximum and the subtraction return, every element handed to
    [torch.exp] is at most 0, and every sum handed to [torch.log] lies
    between 1 and the length of the last axis. *)
Theorem log_sum_exp_exponents_bounded (x : tensor) :
  wf x -> (0 < last_dim (size x))%nat ->
  exists m2 d,
    max_last true x = Ok m2 /\
    sub x m2 = Ok d /\
    size d = size x /\
    Forall (fun v => v <= 0) (data d) /\
    length (data (sum_last (texp d))) = numel (front (size x)) /\
    Forall (fun s => 1 <= s <= INR (last_dim (size x)))
      (data (sum_last (texp d))).
Proof.
  intros Hw Hc. eexists. eexists. split; [|split].
  - unfold max_last.
    replace (last_dim (size x) =? 0)%nat with false
      by (symmetry; apply Nat.eqb_neq; lia).
    reflexivity.
  - apply sub_row_max, Hw.
  - assert (Hrows :
      rows (texp (mkTensor (size x) (concat (map center_row (rows x))))) =
      map (fun r => map exp (center_row r)) (rows x)).
    { unfold texp, tmap. cbn [size data]. rewrite concat_map, map_map.
      apply (rows_concat_map x (fun r => map exp (center_row r)) Hw).
      intros r. unfold center_row. rewrite !length_map. reflexivity. }
    split; [reflexivity|]. split; [|split].
    + cbn [data]. apply Forall_concat, Forall_map, Forall_forall.
      intros r _. apply center_row_nonpos.
    + unfold sum_last. cbn [data]. rewrite length_map, Hrows, length_map.
      apply rows_length.
    + unfold sum_last. cbn [data]. rewrite Hrows, map_map.
      apply Forall_map.
      pose proof (rows_Forall_length x Hw) as HF.
      pose proof (rows_nonempty x Hw Hc) as HN.
      rewrite Forall_forall in *. intros r Hin. split.
      * apply row_sum_exp_lower, center_row_zero, HN, Hin.
      * rewrite <- (HF r Hin).
        replace (length r) with (length (center_row r))
          by (unfold center_row; apply length_map).
        apply row_sum_exp_upper, center_row_nonpos.
Qed.

Lemma ln_le (a b : R) : 0 < a -> a <= b -> ln a <= ln b.
Proof.
  intros Ha [H | ->]; [|lra]. left. apply ln_increasing; assumption.
Qed.

Lemma Forall2_map_same {A : Type} (P : R -> R -> Prop) (f g : A -> R)
    (l : list A) :
  (forall a, In a l -> P (f a) (g a)) -> Forall2 P (map f l) (map g l).
Proof.
  induction l as [|a l IH]; simpl; intros H; constructor.
  - apply H. left. reflexivity.
  - apply IH. intros b Hb. apply H. right. exact Hb.
Qed.

Lemma stable_row_bounds (r : list R) :
  r <> [] ->
  row_max r <= stable_row r <= row_max r + ln (INR (length r)).
Proof.
  intros Hr. unfold stable_row. fold (center_row r).
  pose proof (row_sum_exp_lower _ (center_row_zero r Hr)) as Hlo.
  pose proof (row_sum_exp_upper _ (center_row_nonpos r)) as Hhi.
  replace (length (center_row r)) with (length r) in Hhi
    by (unfold center_row; symmetry; apply length_map).
  pose proof (ln_le 1 _ Rlt_0_1 Hlo) as H1. rewrite ln_1 in H1.
  assert (H2 : ln (row_sum (map exp (center_row r))) <= ln (INR (length r)))
    by (apply ln_le; lra).
  lra.
Qed.

(** X2. On a well-formed tensor with a non-empty last axis of length n,
    each value of [log_sum_exp] lies between the maximum of its row and
    that maximum plus log(n). *)
Theorem log_sum_exp_between_max (x : tensor) :
  wf x -> (0 < last_dim (size x))%nat ->
  exists m l,
    max_last false x = Ok m /\
    log_sum_exp x = Ok l /\
    size l = front (size x) /\
    Forall2 (fun mv lv => mv <= lv <= mv + ln (INR (last_dim (size x))))
      (data m) (data l).
Proof.
  intros Hw Hc. eexists. eexists. split; [|split; [|split]].
  - unfold max_last.
    replace (last_dim (size x) =? 0)%nat with false
      by (symmetry; apply Nat.eqb_neq; lia).
    reflexivity.
  - apply log_sum_exp_rows; assumption.
  - reflexivity.
  - cbn [data]. apply Forall2_map_same. intros r Hin.
    pose proof (rows_Forall_length x Hw) as HF.
    pose proof (rows_nonempty x Hw Hc) as HN.
    rewrite Forall_forall in *. rewrite <- (HF r Hin).
    apply stable_row_bounds, HN, Hin.
Qed.

Lemma stable_row_shift (c : R) (r : list R) :
  r <> [] -> stable_row (map (fun v => v + c) r) = stable_row r + c.
Proof.
  intros Hr.
  rewrite (stable_row_naive (map _ r))
    by (destruct r; [congruence | discriminate]).
  rewrite (stable_row_naive r) by exact Hr.
  rewrite row_sum_exp_add.
  rewrite ln_mult by (try apply exp_pos; apply row_sum_exp_pos, Hr).
  rewrite ln_exp. ring.
Qed.

(** X3. Adding a constant to every element of a well-formed tensor with
    a non-empty last axis adds that constant to every value of
    [log_sum_exp]. *)
Theorem log_sum_exp_shift (c : R) (x : tensor) :
  wf x -> (0 < last_dim (size x))%nat ->
  exists l,
    log_sum_exp x = Ok l /\
    log_sum_exp (tmap (fun v => v + c) x) = Ok (tmap (fun v => v + c) l).
Proof.
  intros Hw Hc. eexists. split; [apply log_sum_exp_rows; assumption|].
  rewrite log_sum_exp_rows.
  - unfold tmap, rows. cbn [size data]. f_equal. f_equal.
    rewrite chunks_map, !map_map. apply map_ext_in. intros r Hin.
    apply stable_row_shift.
    pose proof (rows_nonempty x Hw Hc) as HN.
    rewrite Forall_forall in HN. apply HN, Hin.
  - unfold wf, tmap. cbn [size data]. rewrite length_map. exact Hw.
  - exact Hc.
Qed.

(** ** [LossFn_Mol]: the exceptions after the shape assertions *)

Lemma slice_means_size (y_hat : tensor) :
  (last_dim (size y_hat) mod 3 = 0)%nat ->
  size (slice_last (last_dim (size y_hat) / 3)
          (2 * (last_dim (size y_hat) / 3)) y_hat) = mixture_size y_hat.
Proof.
  intros Hm.
  assert (HC : last_dim (size y_hat) = (3 * (last_dim (size y_hat) / 3))%nat)
    by (apply Nat.Div0.div_exact; exact Hm).
  unfold slice_last, mixture_size. cbn [size]. f_equal. f_equal. lia.
Qed.

Lemma expandable_refl (s : list nat) : expandable s s = true.
Proof.
  induction s as [|n s IH]; simpl; [reflexivity|].
  rewrite Nat.eqb_refl, IH. reflexivity.
Qed.

Lemma broadcastable_refl (s : list nat) : broadcastable s s = true.
Proof.
  unfold broadcastable. rewrite Nat.leb_refl, pad_shape_same.
  apply expandable_refl.
Qed.

Lemma expand_ok (t : tensor) (ts : list nat) :
  broadcastable (size t) ts = true ->
  exists t', expand t ts = Ok t' /\ size t' = ts.
Proof.
  intros Hb. unfold broadcastable in Hb.
  apply andb_true_iff in Hb. destruct Hb as [Hl He].
  apply Nat.leb_le in Hl. unfold expand.
  destruct (shape_eqb (size t) ts) eqn:E.
  - apply shape_eqb_eq in E. exists t. split; [reflexivity | exact E].
  - replace (length ts <? length (size t))%nat with false
      by (symmetry; apply Nat.ltb_ge; exact Hl).
    rewrite He. eexists. split; reflexivity.
Qed.

Lemma expand_fail (t : tensor) (ts : list nat) :
  broadcastable (size t) ts = false -> expand t ts = Raise RuntimeError.
Proof.
  intros Hb. unfold expand.
  destruct (shape_eqb (size t) ts) eqn:E.
  - apply shape_eqb_eq in E. rewrite E, broadcastable_refl in Hb.
    discriminate.
  - destruct (length ts <? length (size t))%nat eqn:El; [reflexivity|].
    apply Nat.ltb_ge in El. unfold broadcastable in Hb.
    replace (length (size t) <=? length ts)%nat with true in Hb
      by (symmetry; apply Nat.leb_le; exact El).
    simpl in Hb. rewrite Hb. reflexivity.
Qed.

(** X4. With [num_classes = 1], a [y_hat] that passes the shape
    assertions and a broadcastable [y], [LossFn_Mol] raises
    ZeroDivisionError: the half bin width is 1 / (num_classes - 1). *)
Theorem LossFn_Mol_one_class_divides_by_zero (y_hat y : tensor)
    (log_scale_min : option R) (reduce : bool) :
  dim y_hat = 3%nat ->
  (last_dim (size y_hat) mod 3 = 0)%nat ->
  broadcastable (size y) (mixture_size y_hat) = true ->
  LossFn_Mol y_hat y 1 log_scale_min reduce = Raise ZeroDivisionError.
Proof.
  intros Hd Hm Hb.
  pose proof (slice_means_size y_hat Hm) as Hs.
  destruct (expand_ok y _ Hb) as (y' & Ey & Hy').
  unfold LossFn_Mol, LossFn_Mol_locals, assert, expand_as.
  apply Nat.eqb_eq in Hd, Hm. rewrite Hd, Hm. cbn [bind]. cbv zeta.
  rewrite Hs, Ey. cbn [bind]. unfold sub at 1.
  rewrite tbin_same by congruence. reflexivity.
Qed.

(** X5. When [y] does not broadcast to the size of [means], [LossFn_Mol]
    raises the RuntimeError of [expand_as], whatever the other arguments
    are. *)
Theorem LossFn_Mol_target_not_broadcastable (y_hat y : tensor)
    (num_classes : Z) (log_scale_min : option R) (reduce : bool) :
  dim y_hat = 3%nat ->
  (last_dim (size y_hat) mod 3 = 0)%nat ->
  broadcastable (size y) (mixture_size y_hat) = false ->
  LossFn_Mol y_hat y num_classes log_scale_min reduce = Raise RuntimeError.
Proof.
  intros Hd Hm Hb.
  pose proof (slice_means_size y_hat Hm) as Hs.
  unfold LossFn_Mol, LossFn_Mol_locals, assert, expand_as.
  apply Nat.eqb_eq in Hd, Hm. rewrite Hd, Hm. cbn [bind]. cbv zeta.
  rewrite Hs, (expand_fail y _ Hb). reflexivity.
Qed.

(** The run of lines 24 to 73 does not need a mixture component. *)
Lemma shaped_input_locals (y_hat y : tensor) (num_classes : Z)
    (log_scale_min : option R) :
  wf y_hat -> wf y -> dim y_hat = 3%nat ->
  (last_dim (size y_hat) mod 3 = 0)%nat ->
  broadcastable (size y) (mixture_size y_hat) = true ->
  (2 <= num_classes)%Z ->
  exists L,
    LossFn_Mol_locals y_hat y num_classes log_scale_min = Ok L /\
    sized (mixture_size y_hat) (logit_probs L) /\
    sized (mixture_size y_hat) (log_probs L).
Proof.
  intros Hw Hwy Hd Hm Hb Hn.
  set (nr_mix := (last_dim (size y_hat) / 3)%nat).
  assert (HC : last_dim (size y_hat) = (3 * nr_mix)%nat)
    by (apply Nat.Div0.div_exact; exact Hm).
  assert (H0 : sized (mixture_size y_hat) (slice_last 0 nr_mix y_hat)).
  { unfold mixture_size. fold nr_mix.
    replace nr_mix with (nr_mix - 0)%nat at 1 by lia.
    apply slice_last_sized; [exact Hw | lia | lia]. }
  assert (H1 : sized (mixture_size y_hat)
                 (slice_last nr_mix (2 * nr_mix) y_hat)).
  { unfold mixture_size. fold nr_mix.
    replace nr_mix with (2 * nr_mix - nr_mix)%nat at 1 by lia.
    apply slice_last_sized; [exact Hw | lia | lia]. }
  assert (H2 : sized (mixture_size y_hat)
                 (slice_last (2 * nr_mix) (3 * nr_mix) y_hat)).
  { unfold mixture_size. fold nr_mix.
    replace nr_mix with (3 * nr_mix - 2 * nr_mix)%nat at 1 by lia.
    apply slice_last_sized; [exact Hw | lia | lia]. }
  destruct (expand_sized y (mixture_size y_hat) Hwy Hb) as (y' & Ey & Hy').
  assert (Ey' : expand_as y (slice_last nr_mix (2 * nr_mix) y_hat) = Ok y').
  { unfold expand_as. destruct H1 as [-> _]. exact Ey. }
  destruct (LossFn_Mol_locals_run y_hat y num_classes log_scale_min
              (mixture_size y_hat) y' (1 / IZR (num_classes - 1))
              Hd Hm H0 H1 H2 Ey' Hy' (half_bin_valid _ Hn))
    as (L & EL & E1 & _ & _ & _ & Hlp & _).
  exists L. split; [exact EL|]. split; [rewrite E1; exact H0 | exact Hlp].
Qed.

(** X6. A well-formed [y_hat] of rank 3 whose last axis is empty passes
    both shape assertions (0 is divisible by 3), and [LossFn_Mol] then
    raises in [log_sum_exp], which cannot take the maximum along an empty
    axis: the exception is not the AssertionError of the shape checks. *)
Theorem LossFn_Mol_no_component_raises (y_hat y : tensor) (num_classes : Z)
    (log_scale_min : option R) (reduce : bool) :
  wf y_hat -> wf y -> dim y_hat = 3%nat ->
  last_dim (size y_hat) = 0%nat ->
  broadcastable (size y) (mixture_size y_hat) = true ->
  (2 <= num_classes)%Z ->
  exists e,
    LossFn_Mol y_hat y num_classes log_scale_min reduce = Raise e /\
    e <> AssertionError.
Proof.
  intros Hw Hwy Hd H0 Hb Hn.
  assert (Hm : (last_dim (size y_hat) mod 3 = 0)%nat)
    by (rewrite H0; reflexivity).
  destruct (shaped_input_locals y_hat y num_classes log_scale_min
              Hw Hwy Hd Hm Hb Hn) as (L & EL & Hlg & Hlp).
  exists IndexError. split; [|discriminate].
  unfold LossFn_Mol. rewrite EL. cbn [bind]. unfold add.
  rewrite tbin_same
    by (destruct Hlp as [-> _]; destruct Hlg as [Hs _];
        unfold log_softmax; cbn [size]; rewrite Hs; reflexivity).
  cbn [bind].
  rewrite log_sum_exp_empty_axis.
  - destruct reduce; reflexivity.
  - cbn [size]. destruct Hlp as [-> _]. unfold mixture_size.
    rewrite last_dim_app, H0. reflexivity.
Qed.

(** ** [LossFn_Mol]: probabilities and their logarithms *)

Lemma sigmoid_range (x : R) : 0 < sigmoid x < 1.
Proof.
  unfold sigmoid. pose proof (exp_pos (- x)) as H.
  assert (H1 : 0 < 1 + exp (- x)) by lra.
  split.
  - apply Rdiv_lt_0_compat; lra.
  - apply (Rmult_lt_reg_r (1 + exp (- x))); [exact H1|].
    unfold Rdiv. rewrite Rmult_assoc, Rinv_l by lra. lra.
Qed.

Lemma sigmoid_increasing (x y : R) : x < y -> sigmoid x < sigmoid y.
Proof.
  intros H. unfold sigmoid, Rdiv. rewrite !Rmult_1_l.
  pose proof (exp_pos (- x)). pose proof (exp_pos (- y)).
  apply Rinv_0_lt_contravar; [lra|].
  assert (exp (- y) < exp (- x)) by (apply exp_increasing; lra). lra.
Qed.

Lemma softplus_above (x : R) : x <= softplus x /\ 0 < softplus x.
Proof.
  unfold softplus. destruct (Rlt_dec 20 x) as [H|H]; [lra|].
  pose proof (exp_pos x) as He.
  assert (H1 : ln (exp x) < ln (1 + exp x))
    by (apply ln_increasing; lra).
  assert (H2 : ln 1 < ln (1 + exp x)) by (apply ln_increasing; lra).
  rewrite ln_exp in H1. rewrite ln_1 in H2. lra.
Qed.

Lemma half_bin_pos (num_classes : Z) :
  (2 <= num_classes)%Z -> 0 < 1 / IZR (num_classes - 1).
Proof.
  intros H. apply Rdiv_lt_0_compat; [lra|].
  apply (IZR_lt 0). lia.
Qed.

Lemma pointwise_cdf_delta_range (L : locals) (h : R) (i : nat) :
  pointwise L h i -> 0 < h -> 0 < elt (cdf_delta L) i < 1.
Proof.
  intros P Hh.
  rewrite (pw_cdf_delta _ _ _ P), (pw_cdf_plus _ _ _ P),
    (pw_cdf_min _ _ _ P).
  assert (Hlt : elt (min_in L) i < elt (plus_in L) i).
  { rewrite (pw_min_in _ _ _ P), (pw_plus_in _ _ _ P),
      (pw_inv_stdv _ _ _ P).
    pose proof (exp_pos (- elt (log_scales L) i)). nra. }
  pose proof (sigmoid_increasing _ _ Hlt).
  pose proof (sigmoid_range (elt (plus_in L) i)).
  pose proof (sigmoid_range (elt (min_in L) i)). lra.
Qed.

(** X7. On every valid input, [cdf_delta] is strictly between 0 and 1 at
    every position: the bin mass is a probability, and the logarithm of
    line 68 is taken of a positive number. *)
Theorem LossFn_Mol_cdf_delta_probability (y_hat y : tensor)
    (num_classes : Z) (log_scale_min : option R) :
  valid_input y_hat y num_classes ->
  exists L,
    LossFn_Mol_locals y_hat y num_classes log_scale_min = Ok L /\
    forall i, (i < numel (mixture_size y_hat))%nat ->
      0 < elt (cdf_delta L) i < 1.
Proof.
  intros Hv.
  destruct (valid_input_locals y_hat y num_classes log_scale_min Hv)
    as (L & y' & EL & _ & _ & _ & _ & _ & _ & _ & Hpw).
  exists L. split; [exact EL|]. intros i Hi.
  eapply pointwise_cdf_delta_range; [apply Hpw, Hi|].
  apply half_bin_pos, Hv.
Qed.

(** X8. On every valid input, the two edge log-probabilities
    [log_cdf_plus] and [log_one_minus_cdf_min] are never positive. *)
Theorem LossFn_Mol_edge_log_probs_nonpositive (y_hat y : tensor)
    (num_classes : Z) (log_scale_min : option R) :
  valid_input y_hat y num_classes ->
  exists L,
    LossFn_Mol_locals y_hat y num_classes log_scale_min = Ok L /\
    forall i, (i < numel (mixture_size y_hat))%nat ->
      elt (log_cdf_plus L) i <= 0 /\ elt (log_one_minus_cdf_min L) i < 0.
Proof.
  intros Hv.
  destruct (valid_input_locals y_hat y num_classes log_scale_min Hv)
    as (L & y' & EL & _ & _ & _ & _ & _ & _ & _ & Hpw).
  exists L. split; [exact EL|]. intros i Hi. specialize (Hpw i Hi).
  rewrite (pw_log_cdf_plus _ _ _ Hpw), (pw_log_one_minus_cdf_min _ _ _ Hpw).
  pose proof (softplus_above (elt (plus_in L) i)).
  pose proof (softplus_above (elt (min_in L) i)). lra.
Qed.

(** X9. On every valid input, line 73 selects at each position: for a
    target below -0.999, [log_cdf_plus]; for a target above 0.999,
    [log_one_minus_cdf_min]; otherwise log([cdf_delta]) when [cdf_delta]
    is above 1e-5 (the clamp at 1e-12 is inactive), and [log_pdf_mid]
    minus the literal [tmp] when it is not. *)
Theorem LossFn_Mol_selection (y_hat y : tensor) (num_classes : Z)
    (log_scale_min : option R) :
  valid_input y_hat y num_classes ->
  exists L,
    LossFn_Mol_locals y_hat y num_classes log_scale_min = Ok L /\
    forall i, (i < numel (mixture_size y_hat))%nat ->
      let t := elt (y_expanded L) i in
      (t < -0.999 -> elt (log_probs L) i = elt (log_cdf_plus L) i) /\
      (0.999 < t ->
       elt (log_probs L) i = elt (log_one_minus_cdf_min L) i) /\
      (-0.999 <= t <= 0.999 -> 1e-5 < elt (cdf_delta L) i ->
       elt (log_probs L) i = ln (elt (cdf_delta L) i)) /\
      (-0.999 <= t <= 0.999 -> ~ 1e-5 < elt (cdf_delta L) i ->
       elt (log_probs L) i = elt (log_pdf_mid L) i - tmp).
Proof.
  intros Hv.
  destruct (valid_input_locals y_hat y num_classes log_scale_min Hv)
    as (L & y' & EL & _ & _ & _ & _ & _ & _ & _ & Hpw).
  exists L. split; [exact EL|]. intros i Hi t. specialize (Hpw i Hi).
  repeat split.
  - intros Ht. eapply pointwise_low; eassumption.
  - intros Ht. eapply pointwise_high; eassumption.
  - intros Ht Hd.
    rewrite (pw_log_probs _ _ _ Hpw), (pw_cond _ _ _ Hpw),
      (pw_inner_out _ _ _ Hpw), (pw_inner_cond _ _ _ Hpw),
      (pw_inner_inner_out _ _ _ Hpw), (pw_inner_inner_cond _ _ _ Hpw).
    fold t.
    rewrite (indicator_gt_true 1e-5) by exact Hd.
    rewrite (indicator_gt_false 0.999) by lra.
    rewrite indicator_lt_false by lra.
    rewrite Rmax_left by lra. ring.
  - intros Ht Hd. eapply pointwise_fallback; eassumption.
Qed.

Lemma stable_row_single_rows (rs : list (list R)) :
  Forall (fun r => length r = 1%nat) rs -> map stable_row rs = concat rs.
Proof.
  induction 1 as [|r rs Hr _ IH]; simpl; [reflexivity|].
  destruct r as [|v [|w r]]; simpl in Hr; try discriminate.
  rewrite IH. simpl. f_equal.
  unfold stable_row. simpl. unfold Rminus.
  rewrite Rplus_opp_r, exp_0, Rplus_0_r, ln_1. ring.
Qed.

(** X10. With a single mixture component (last axis of size 3) and a valid
    input, the unreduced loss at each position is minus the
    log-probability selected on line 73: the mixture weight contributes
    nothing and [log_sum_exp] of a one-element row is that element. *)
Theorem LossFn_Mol_single_component_value (y_hat y : tensor)
    (num_classes : Z) (log_scale_min : option R) :
  valid_input y_hat y num_classes ->
  last_dim (size y_hat) = 3%nat ->
  exists L t,
    LossFn_Mol_locals y_hat y num_classes log_scale_min = Ok L /\
    LossFn_Mol y_hat y num_classes log_scale_min false = Ok t /\
    data t = map Ropp (data (log_probs L)).
Proof.
  intros Hv H3.
  destruct (valid_input_locals y_hat y num_classes log_scale_min Hv)
    as (L & y' & EL & _ & _ & _ & _ & _ & Hlg & Hlp & _).
  destruct (valid_input_loss y_hat y num_classes log_scale_min false Hv)
    as (L' & EL' & Hs & E).
  rewrite EL in EL'. injection EL' as <-.
  exists L. eexists. split; [exact EL|]. split; [exact E|].
  cbn zeta. cbn [data neg unsqueeze_last tmap]. f_equal.
  assert (H1 : last_dim (mixture_size y_hat) = 1%nat)
    by (unfold mixture_size; rewrite last_dim_app, H3; reflexivity).
  assert (Hsm : data (log_softmax (logit_probs L)) =
                concat (repeat [0] (numel (front (mixture_size y_hat))))).
  { rewrite log_softmax_single.
    - cbn [data]. destruct Hlg as [-> _]. reflexivity.
    - eapply sized_wf, Hlg.
    - destruct Hlg as [-> _]. exact H1. }
  assert (Hd : data (mixture_log_probs L) = data (log_probs L)).
  { unfold mixture_log_probs. cbn [data]. rewrite Hsm.
    destruct Hlp as [_ Hl]. rewrite <- numel_front_last, H1, Nat.mul_1_r in Hl.
    revert Hl. generalize (numel (front (mixture_size y_hat))).
    generalize (data (log_probs L)).
    induction l as [|v l IH]; intros [|n] Hl; simpl in *;
      try discriminate; [reflexivity|].
    rewrite Rplus_0_r. f_equal. apply IH. lia. }
  pose proof (rows_Forall_length _ (sized_wf _ _ Hs)) as HF.
  pose proof (concat_rows _ (sized_wf _ _ Hs)) as Hc.
  rewrite <- Hd, <- Hc.
  destruct Hs as [Hsz _]. rewrite Hsz, H1 in HF.
  apply stable_row_single_rows, HF.
Qed.

(** ** [LossFn_Mol]: the floor of the log-scales *)

(** [y_hat] with every log-scale (the last third of the last axis) below
    [lo] raised to [lo]. *)
Definition floor_row (lo : R) (k : nat) (r : list R) : list R :=
  firstn k r ++ map (fun v => Rmax v lo) (skipn k r).

Definition floor_log_scales (lo : R) (y_hat : tensor) : tensor :=
  let nr_mix := (last_dim (size y_hat) / 3)%nat in
  mkTensor (size y_hat)
    (concat (map (floor_row lo (2 * nr_mix)) (rows y_hat))).

Lemma floor_row_length (lo : R) (k : nat) (r : list R) :
  length (floor_row lo k r) = length r.
Proof.
  unfold floor_row. rewrite length_app, length_map.
  rewrite <- length_app, firstn_skipn. reflexivity.
Qed.

Lemma rows_floor_log_scales (lo : R) (t : tensor) :
  wf t ->
  rows (floor_log_scales lo t) =
  map (floor_row lo (2 * (last_dim (size t) / 3))) (rows t).
Proof.
  intros Hw. unfold floor_log_scales.
  apply rows_concat_map; [exact Hw|]. intros r. apply floor_row_length.
Qed.

Lemma slice_floor_before (lo : R) (a b : nat) (t : tensor) :
  wf t -> (b <= 2 * (last_dim (size t) / 3))%nat ->
  slice_last a b (floor_log_scales lo t) = slice_last a b t.
Proof.
  intros Hw Hb. unfold slice_last.
  rewrite rows_floor_log_scales by exact Hw.
  cbn [size floor_log_scales]. f_equal. f_equal. rewrite map_map.
  apply map_ext_in. intros r Hin.
  pose proof (rows_Forall_length t Hw) as HF.
  rewrite Forall_forall in HF. specialize (HF r Hin).
  set (k := (2 * (last_dim (size t) / 3))%nat) in *.
  set (C := last_dim (size t)) in *.
  apply row_slice_ext; [apply floor_row_length|].
  intros j Hj. unfold floor_row.
  rewrite app_nth1 by (rewrite length_firstn; lia).
  rewrite nth_firstn.
  replace (j <? k)%nat with true by (symmetry; apply Nat.ltb_lt; lia).
  reflexivity.
Qed.

Lemma slice_floor_scales (lo : R) (t : tensor) :
  wf t ->
  slice_last (2 * (last_dim (size t) / 3)) (3 * (last_dim (size t) / 3))
    (floor_log_scales lo t) =
  clamp_min lo
    (slice_last (2 * (last_dim (size t) / 3))
       (3 * (last_dim (size t) / 3)) t).
Proof.
  intros Hw. unfold slice_last, clamp_min, tmap.
  rewrite rows_floor_log_scales by exact Hw.
  cbn [size data floor_log_scales]. f_equal.
  rewrite concat_map, !map_map. f_equal.
  apply map_ext_in. intros r Hin.
  pose proof (rows_Forall_length t Hw) as HF.
  rewrite Forall_forall in HF. specialize (HF r Hin).
  pose proof (Nat.Div0.mul_div_le (last_dim (size t)) 3) as H3.
  set (K := (last_dim (size t) / 3)%nat) in *.
  set (C := last_dim (size t)) in *.
  rewrite (Nat.min_l (2 * K) C), (Nat.min_l (3 * K) C), Nat.max_r by lia.
  unfold floor_row.
  rewrite skipn_app, length_firstn.
  rewrite (skipn_all2 (firstn _ _)) by (rewrite length_firstn; lia).
  replace (2 * K - Nat.min (2 * K) (length r))%nat with 0%nat by lia.
  cbn [app skipn]. apply firstn_map.
Qed.

Lemma clamp_min_floor (lo f : R) (t : tensor) :
  lo <= f -> clamp_min f (clamp_min lo t) = clamp_min f t.
Proof.
  intros H. unfold clamp_min, tmap. cbn [size data]. f_equal.
  rewrite map_map. apply map_ext. intros v.
  unfold Rmax. repeat destruct (Rle_dec _ _); lra.
Qed.

Lemma LossFn_Mol_slices (y_hat y_hat' y : tensor) (num_classes : Z)
    (log_scale_min : option R) (reduce : bool) :
  let nr_mix := (last_dim (size y_hat) / 3)%nat in
  let lsm := match log_scale_min with None => min_value | Some v => v end in
  size y_hat' = size y_hat ->
  slice_last 0 nr_mix y_hat' = slice_last 0 nr_mix y_hat ->
  slice_last nr_mix (2 * nr_mix) y_hat' =
    slice_last nr_mix (2 * nr_mix) y_hat ->
  clamp_min lsm (slice_last (2 * nr_mix) (3 * nr_mix) y_hat') =
    clamp_min lsm (slice_last (2 * nr_mix) (3 * nr_mix) y_hat) ->
  LossFn_Mol y_hat' y num_classes log_scale_min reduce =
  LossFn_Mol y_hat y num_classes log_scale_min reduce.
Proof.
  intros nr_mix lsm Hs Hlp Hmn Hls.
  unfold LossFn_Mol, LossFn_Mol_locals, dim. cbv zeta.
  rewrite Hs. fold nr_mix. fold lsm. rewrite Hlp, Hmn, Hls. reflexivity.
Qed.

(** X11. On every valid input, raising the log-scales of [y_hat] that are
    below some [lo] up to [lo], for any [lo] at most the floor in force
    ([log_scale_min], or log(1e-14) by default), leaves the output of
    [LossFn_Mol] unchanged. *)
Theorem LossFn_Mol_log_scale_floor (lo : R) (y_hat y : tensor)
    (num_classes : Z) (log_scale_min : option R) (reduce : bool) :
  valid_input y_hat y num_classes ->
  lo <= match log_scale_min with None => min_value | Some v => v end ->
  exists t,
    LossFn_Mol y_hat y num_classes log_scale_min reduce = Ok t /\
    LossFn_Mol (floor_log_scales lo y_hat) y num_classes log_scale_min
      reduce = Ok t.
Proof.
  intros Hv Hlo.
  destruct (valid_input_loss y_hat y num_classes log_scale_min reduce Hv)
    as (L & _ & _ & E).
  eexists. split; [exact E|]. etransitivity; [|exact E].
  assert (Hw : wf y_hat) by apply Hv.
  apply LossFn_Mol_slices.
  - reflexivity.
  - apply slice_floor_before; [exact Hw | lia].
  - apply slice_floor_before; [exact Hw | lia].
  - rewrite slice_floor_scales by exact Hw. apply clamp_min_floor, Hlo.
Qed.

(** ** [save_checkpoint] *)

Lemma string_length_append (s t : string) :
  String.length (s ++ t) = (String.length s + String.length t)%nat.
Proof. induction s as [|c s IH]; simpl; [|rewrite IH]; reflexivity. Qed.

Lemma append_same_length (s s' t t' : string) :
  String.length s = String.length s' ->
  (s ++ t)%string = (s' ++ t')%string -> t = t'.
Proof.
  revert s'. induction s as [|c s IH]; intros [|c' s'] Hl E; simpl in *;
    try discriminate; [exact E|].
  injection E as _ E. apply (IH s'); [lia | exact E].
Qed.

Lemma temp_neq_self (f : string) : (f ++ ".temp")%string <> f.
Proof.
  intros E. apply (f_equal String.length) in E.
  rewrite string_length_append in E. simpl in E. lia.
Qed.

Lemma temp_neq_best (f : string) :
  (f ++ ".temp")%string <> "model_best.pth.tar"%string.
Proof.
  intros E.
  assert (Hl : String.length f = 13%nat).
  { apply (f_equal String.length) in E.
    rewrite string_length_append in E. simpl in E. lia. }
  change "model_best.pth.tar"%string
    with ("model_best.pt" ++ "h.tar")%string in E.
  apply append_same_length in E; [discriminate | exact Hl].
Qed.

Lemma fs_write_same {A : Type} (fs : filesystem A) (p : string) (v : A) :
  fs_write fs p v p = Some v.
Proof. unfold fs_write. rewrite String.eqb_refl. reflexivity. Qed.

Lemma fs_write_other {A : Type} (fs : filesystem A) (p q : string) (v : A) :
  q <> p -> fs_write fs p v q = fs q.
Proof.
  intros H. unfold fs_write. apply String.eqb_neq in H. rewrite H.
  reflexivity.
Qed.

Lemma fs_delete_same {A : Type} (fs : filesystem A) (p : string) :
  fs_delete fs p p = None.
Proof. unfold fs_delete. rewrite String.eqb_refl. reflexivity. Qed.

Lemma fs_delete_other {A : Type} (fs : filesystem A) (p q : string) :
  q <> p -> fs_delete fs p q = fs q.
Proof.
  intros H. unfold fs_delete. apply String.eqb_neq in H. rewrite H.
  reflexivity.
Qed.

(** Up to the copy of the best checkpoint, [save_checkpoint] with a
    non-empty file name leaves [filename] holding [state] and no temporary
    file, whatever the temporary file held before. *)
Lemma save_checkpoint_not_best {A : Type} (state : A) (filename : string)
    (fs : filesystem A) :
  filename <> ""%string ->
  exists fs',
    save_checkpoint state false filename fs = (None, fs') /\
    (forall is_best,
       save_checkpoint state is_best filename fs =
       if is_best then
         match copyfile fs' filename "model_best.pth.tar" with
         | inl e => (Some e, fs')
         | inr fs4 => (None, fs4)
         end
       else (None, fs')) /\
    fs' filename = Some state /\
    fs' (filename ++ ".temp")%string = None /\
    (forall q, q <> filename -> q <> (filename ++ ".temp")%string ->
               fs' q = fs q).
Proof.
  intros Hne. apply String.eqb_neq in Hne.
  set (tempfile := (filename ++ ".temp")%string).
  set (fs1 := if isfile fs tempfile then fs_delete fs tempfile else fs).
  set (fs2 := torch_save fs1 tempfile state).
  set (fs3 := fs_write (fs_delete fs2 tempfile) filename state).
  assert (E1 : (if isfile fs tempfile then os_remove fs tempfile else inr fs)
               = inr fs1).
  { unfold fs1, os_remove. destruct (isfile fs tempfile); reflexivity. }
  assert (E2 : fs2 tempfile = Some state) by apply fs_write_same.
  assert (E3 : (if isfile fs2 tempfile
                then os_rename fs2 tempfile filename else inr fs2)
               = inr fs3).
  { unfold isfile, os_rename. rewrite E2.
    replace (String.eqb tempfile filename) with false
      by (symmetry; apply String.eqb_neq, temp_neq_self).
    reflexivity. }
  exists fs3. split; [|split; [|split; [|split]]].
  - unfold save_checkpoint. rewrite Hne. cbv zeta. fold tempfile.
    rewrite E1. fold fs2. rewrite E3. reflexivity.
  - intros is_best. unfold save_checkpoint. rewrite Hne. cbv zeta.
    fold tempfile. rewrite E1. fold fs2. rewrite E3. reflexivity.
  - apply fs_write_same.
  - unfold fs3. rewrite fs_write_other by apply temp_neq_self.
    apply fs_delete_same.
  - intros q Hq Ht. unfold fs3, fs2, torch_save, fs1.
    rewrite fs_write_other, fs_delete_other, fs_write_other by assumption.
    destruct (isfile fs tempfile); [apply fs_delete_other, Ht | reflexivity].
Qed.


(** X13. [save_checkpoint(state, True, "model_best.pth.tar")] raises
    SameFileError from [shutil.copyfile], after [state] has been written
    to that file. *)
Theorem save_checkpoint_best_onto_itself {A : Type} (state : A)
    (fs : filesystem A) :
  exists fs',
    save_checkpoint state true "model_best.pth.tar" fs
      = (Some SameFileError, fs') /\
    fs' "model_best.pth.tar"%string = Some state.
Proof.
  destruct (save_checkpoint_not_best state "model_best.pth.tar" fs)
    as (fs3 & _ & E & Hf & _ & _); [discriminate|].
  exists fs3. split; [|exact Hf].
  rewrite E. unfold copyfile. rewrite Hf, String.eqb_refl. reflexivity.
Qed.

(** ** The averages of the loops *)

Lemma dd_get_set_same (k : string) (v : R) (d : defaultdict) :
  dd_get k (dd_set k v d) = v.
Proof.
  induction d as [|[k' v'] d IH]; simpl.
  - rewrite String.eqb_refl. reflexivity.
  - destruct (String.eqb k k') eqn:E; simpl.
    + rewrite String.eqb_refl. reflexivity.
    + rewrite E. exact IH.
Qed.

Lemma dd_mem_set (k k' : string) (v : R) (d : defaultdict) :
  dd_mem k (dd_set k' v d) = String.eqb k k' || dd_mem k d.
Proof.
  induction d as [|[k0 v0] d IH]; simpl.
  - rewrite orb_false_r. reflexivity.
  - destruct (String.eqb k' k0) eqn:E; simpl.
    + apply String.eqb_eq in E. subst k0.
      destruct (String.eqb k k'); reflexivity.
    + rewrite IH. destruct (String.eqb k k'), (String.eqb k k0); reflexivity.
Qed.

Lemma dd_get_add_same (k : string) (v : R) (d : defaultdict) :
  dd_get k (dd_add k v d) = dd_get k d + v.
Proof. unfold dd_add. apply dd_get_set_same. Qed.

Lemma dd_mem_add (k k' : string) (v : R) (d : defaultdict) :
  dd_mem k (dd_add k' v d) = String.eqb k k' || dd_mem k d.
Proof. unfold dd_add. apply dd_mem_set. Qed.

Lemma bind_ok_inv {A B : Type} (m : result A) (k : A -> result B) (b : B) :
  bind m k = Ok b -> exists a, m = Ok a /\ k a = Ok b.
Proof.
  destruct m as [a|e]; simpl; [|discriminate]. intros H. exists a. auto.
Qed.

Lemma div_len_ok (total : R) (n : nat) (v : R) :
  div_len total n = Ok v -> n <> 0%nat /\ v = total / INR n.
Proof.
  destruct n; simpl; [discriminate|]. intros E. injection E as <-.
  split; [discriminate | reflexivity].
Qed.

(** X14. On an empty data loader both loops raise ZeroDivisionError (the
    sum of the losses is divided by the number of batches), and a loop
    that returns has therefore processed at least one batch. *)
Theorem loops_empty_loader {Params : Type} (tr : trainer Params)
    (p : Params) :
  train_one_epoch tr p [] = Raise ZeroDivisionError /\
  evaluate tr p [] = Raise ZeroDivisionError /\
  (forall data_loader r,
     train_one_epoch tr p data_loader = Ok r -> data_loader <> []) /\
  (forall data_loader v,
     evaluate tr p data_loader = Ok v -> data_loader <> []).
Proof.
  split; [reflexivity|]. split; [reflexivity|]. split.
  - intros dl r E ->. discriminate.
  - intros dl v E ->. discriminate.
Qed.

Lemma for_each_evaluate_sum {Params : Type} (tr : trainer Params)
    (p : Params) (data_loader : list batch) (ls : list R) :
  Forall2 (fun b l => forall sums,
             evaluate_batch tr p sums b = Ok (dd_add "loss" l sums))
    data_loader ls ->
  forall sums, exists sums',
    for_each (evaluate_batch tr p) sums data_loader = Ok sums' /\
    dd_get "loss" sums' = dd_get "loss" sums + row_sum ls.
Proof.
  induction 1 as [|b l dl ls Hb _ IH]; intros sums.
  - exists sums. split; [reflexivity | simpl; ring].
  - destruct (IH (dd_add "loss" l sums)) as (s' & E & Hs).
    exists s'. split.
    + cbn [for_each]. rewrite Hb. cbn [bind]. exact E.
    + rewrite Hs, dd_get_add_same. simpl. ring.
Qed.

(** X15. When each batch of a non-empty loader adds its loss to the
    accumulator, [evaluate] returns the mean of those losses. *)
Theorem evaluate_is_mean {Params : Type} (tr : trainer Params) (p : Params)
    (data_loader : list batch) (ls : list R) :
  data_loader <> [] ->
  Forall2 (fun b l => forall sums,
             evaluate_batch tr p sums b = Ok (dd_add "loss" l sums))
    data_loader ls ->
  evaluate tr p data_loader = Ok (row_sum ls / INR (length data_loader)).
Proof.
  intros Hne HF.
  destruct (for_each_evaluate_sum tr p data_loader ls HF []) as (s & E & Hs).
  unfold evaluate. rewrite E. cbn [bind]. rewrite Hs.
  destruct data_loader as [|b dl]; [congruence|].
  cbn [length div_len]. simpl dd_get. rewrite Rplus_0_l. reflexivity.
Qed.

Lemma train_batch_gradient_key {Params : Type} (tr : trainer Params)
    (st st' : Params * defaultdict) (b : batch) :
  train_batch tr st b = Ok st' ->
  dd_mem "gradient" (snd st') =
  if Rlt_dec 0 (clip_norm tr) then true else dd_mem "gradient" (snd st).
Proof.
  destruct st as [p sums]. destruct b as [[x m] y]. unfold train_batch.
  intros H.
  apply bind_ok_inv in H. destruct H as (y_hat & _ & H).
  apply bind_ok_inv in H. destruct H as (yy & _ & H).
  apply bind_ok_inv in H. destruct H as (loss & _ & H).
  apply bind_ok_inv in H. destruct H as (l & _ & H).
  apply bind_ok_inv in H. destruct H as (p1 & _ & H).
  apply bind_ok_inv in H. destruct H as (st1 & Hst & H).
  apply bind_ok_inv in H. destruct H as (p2 & _ & H).
  injection H as <-. cbn [snd].
  destruct (Rlt_dec 0 (clip_norm tr)).
  - apply bind_ok_inv in Hst. destruct Hst as (pn & _ & Hst).
    injection Hst as <-. cbn [snd]. rewrite dd_mem_add. reflexivity.
  - injection Hst as <-. cbn [snd]. rewrite dd_mem_add. reflexivity.
Qed.

Lemma for_each_train_gradient_key {Params : Type} (tr : trainer Params)
    (data_loader : list batch) :
  forall st st',
    for_each (train_batch tr) st data_loader = Ok st' ->
    data_loader <> [] ->
    dd_mem "gradient" (snd st') =
    if Rlt_dec 0 (clip_norm tr) then true else dd_mem "gradient" (snd st).
Proof.
  induction data_loader as [|b dl IH]; intros st st' H Hne; [congruence|].
  cbn [for_each] in H. apply bind_ok_inv in H.
  destruct H as (st1 & H1 & H).
  pose proof (train_batch_gradient_key tr st st1 b H1) as Hk.
  destruct dl as [|b' dl].
  - cbn [for_each] in H. injection H as <-. exact Hk.
  - rewrite (IH st1 st' H) by discriminate. rewrite Hk.
    destruct (Rlt_dec 0 (clip_norm tr)); reflexivity.
Qed.

(** X16. When [train_one_epoch] returns, it reports an average gradient
    norm exactly when [args.clip_norm] is positive. *)
Theorem train_one_epoch_reports_gradient {Params : Type}
    (tr : trainer Params) (p p' : Params) (data_loader : list batch)
    (avg_loss : R) (avg_gradient : option R) :
  train_one_epoch tr p data_loader = Ok (p', avg_loss, avg_gradient) ->
  (avg_gradient <> None <-> 0 < clip_norm tr).
Proof.
  unfold train_one_epoch. intros H.
  apply bind_ok_inv in H. destruct H as (st & Hst & H).
  apply bind_ok_inv in H. destruct H as (al & Hal & H).
  apply div_len_ok in Hal. destruct Hal as [Hn _].
  assert (Hne : data_loader <> []) by (intros ->; apply Hn; reflexivity).
  pose proof (for_each_train_gradient_key tr data_loader _ _ Hst Hne) as Hk.
  cbn [snd dd_mem] in Hk. rewrite Hk in H.
  destruct (Rlt_dec 0 (clip_norm tr)) as [Hc|Hc].
  - apply bind_ok_inv in H. destruct H as (ag & _ & H).
    injection H as _ _ <-. split; [intros _; exact Hc | discriminate].
  - injection H as _ _ <-. split; [congruence | contradiction].
Qed.

(** ** The epochs of [main] *)

Lemma for_epochs_app {S : Type} (body : S -> Z -> outcome S) (st st' : S)
    (l1 l2 : list Z) :
  for_epochs body st (l1 ++ l2) = Done st' ->
  exists st1, for_epochs body st l1 = Done st1 /\
              for_epochs body st1 l2 = Done st'.
Proof.
  revert st. induction l1 as [|e l1 IH]; intros st H; simpl in *.
  - exists st. split; [reflexivity | exact H].
  - destruct (body st e) as [st0|err]; [|discriminate]. apply IH, H.
Qed.

Lemma for_epochs_inv {S : Type} (Inv : S -> Prop)
    (body : S -> Z -> outcome S) (l : list Z) :
  (forall st e st', Inv st -> body st e = Done st' -> Inv st') ->
  forall st st', Inv st -> for_epochs body st l = Done st' -> Inv st'.
Proof.
  intros Hstep. induction l as [|e l IH]; intros st st' Hi H; simpl in H.
  - injection H as <-. exact Hi.
  - destruct (body st e) as [st0|err] eqn:E; [|discriminate].
    apply (IH st0); [eapply Hstep; eassumption | exact H].
Qed.

Lemma range_empty (start stop : Z) : (stop <= start)%Z -> range start stop = [].
Proof.
  intros H. unfold range.
  replace (Z.to_nat (stop - start)) with 0%nat by lia. reflexivity.
Qed.

Lemma range_last (start stop : Z) :
  (start < stop)%Z ->
  range start stop = range start (stop - 1) ++ [(stop - 1)%Z].
Proof.
  intros H. unfold range.
  replace (Z.to_nat (stop - start))
    with (S (Z.to_nat (stop - 1 - start))) by lia.
  rewrite seq_S, map_app. simpl. f_equal. f_equal. lia.
Qed.


(** What an epoch that returns has done. *)
Lemma epoch_body_done {Params : Type} (args : arguments)
    (tr : trainer Params) (loader_training loader_test : list batch)
    (p p' : Params) (b b' : R) (fs fs' : filesystem (checkpoint_dict Params))
    (epoch : Z) :
  epoch_body args tr loader_training loader_test (p, b, fs) epoch
    = Done (p', b', fs') ->
  (exists al ag, train_one_epoch tr p loader_training = Ok (p', al, ag)) /\
  print_freq args <> 0%Z /\
  ((b' = b /\ fs' = fs /\ (epoch + 1)%Z <> epochs args) \/
   (exists sl,
      evaluate tr p' loader_test = Ok sl /\
      b' = Rmin sl b /\
      save_checkpoint (mkCheckpoint (epoch + 1) p' (Rmin sl b))
        (if Rlt_dec sl b then true else false) (checkpoint args) fs
      = (None, fs'))).
Proof.
  unfold epoch_body.
  destruct (train_one_epoch tr p loader_training) as [[[p1 al] ag]|e];
    [|discriminate].
  destruct (print_freq args =? 0)%Z eqn:Ef; [discriminate|].
  apply Z.eqb_neq in Ef.
  destruct (((epoch + 1) mod print_freq args =? 0)%Z
            || (epoch + 1 =? epochs args)%Z) eqn:Ec.
  - destruct (evaluate tr p1 loader_test) as [sl|e] eqn:Ee; [|discriminate].
    destruct (save_checkpoint _ _ _ _) as [[e|] fs1] eqn:Es; [discriminate|].
    intros H. injection H as <- <- <-.
    split; [eauto|]. split; [exact Ef|]. right.
    exists sl. split; [exact Ee|]. split; [reflexivity | exact Es].
  - intros H. injection H as <- <- <-.
    split; [eauto|]. split; [exact Ef|]. left.
    apply orb_false_iff in Ec. destruct Ec as [_ Ec].
    apply Z.eqb_neq in Ec. auto.
Qed.

Lemma save_checkpoint_done {A : Type} (state : A) (is_best : bool)
    (filename : string) (fs fs' : filesystem A) :
  filename <> ""%string ->
  save_checkpoint state is_best filename fs = (None, fs') ->
  fs' filename = Some state /\
  (is_best = true -> filename <> "model_best.pth.tar"%string /\
                     fs' "model_best.pth.tar"%string = Some state) /\
  (is_best = false -> filename <> "model_best.pth.tar"%string ->
   fs' "model_best.pth.tar"%string = fs "model_best.pth.tar"%string).
Proof.
  intros Hne H.
  destruct (save_checkpoint_not_best state filename fs Hne)
    as (fs3 & E0 & E & Hf & _ & Hq).
  rewrite E in H. destruct is_best.
  - unfold copyfile in H. rewrite Hf in H.
    destruct (String.eqb filename "model_best.pth.tar") eqn:Eb;
      [discriminate|].
    apply String.eqb_neq in Eb. injection H as <-.
    split; [rewrite fs_write_other by exact Eb; exact Hf|].
    split; [|discriminate]. intros _. split; [exact Eb|].
    apply fs_write_same.
  - injection H as <-. split; [exact Hf|]. split; [discriminate|].
    intros _ Hb. apply Hq; [congruence|].
    intros E'. symmetry in E'. exact (temp_neq_best _ E').
Qed.

Lemma save_checkpoint_empty {A : Type} (state : A) (is_best : bool)
    (fs : filesystem A) :
  save_checkpoint state is_best "" fs = (None, fs).
Proof. reflexivity. Qed.

(** What [main] starts the epochs from, when it gets that far. *)
Lemma main_done {Params : Type} (args : arguments) (tr : trainer Params)
    (p p' : Params) (b' : R) (loader_training loader_test : list batch)
    (fs fs' : filesystem (checkpoint_dict Params)) :
  main args tr p loader_training loader_test fs = Done (p', b', fs') ->
  fold_left Z.mul (upsample_scales args) 1%Z = hop_length args /\
  exists start p0 b0 fs0,
    for_epochs (epoch_body args tr loader_training loader_test)
      (p0, b0, fs0) (range start (epochs args)) = Done (p', b', fs') /\
    ((checkpoint args <> ""%string /\
      fs (checkpoint args) =
        Some (mkCheckpoint start p0 b0) /\ fs0 = fs) \/
     ((checkpoint args = ""%string \/ fs (checkpoint args) = None) /\
      start = start_epoch args /\ p0 = p /\ b0 = 1.0 /\
      save_checkpoint (mkCheckpoint (start_epoch args) p 1.0) false
        (checkpoint args) fs = (None, fs0))).
Proof.
  unfold main. cbv zeta.
  destruct (fold_left Z.mul (upsample_scales args) 1 =? hop_length args)%Z
    eqn:Eh; [|discriminate].
  apply Z.eqb_eq in Eh. cbn [negb]. intros H. split; [exact Eh|].
  destruct (String.eqb (checkpoint args) "") eqn:En; cbn [negb andb] in H.
  - apply String.eqb_eq in En.
    destruct (save_checkpoint _ false _ fs) as [[e|] fs0] eqn:Es;
      [discriminate|].
    exists (start_epoch args), p, 1.0, fs0. split; [exact H|].
    right. split; [left; exact En|]. auto.
  - apply String.eqb_neq in En. unfold isfile in H.
    destruct (fs (checkpoint args)) as [[e0 p0 b0]|] eqn:Ef.
    + cbn in H. exists e0, p0, b0, fs. split; [exact H|]. left. auto.
    + destruct (save_checkpoint _ false _ fs) as [[e|] fs0] eqn:Es;
        [discriminate|].
      exists (start_epoch args), p, 1.0, fs0. split; [exact H|].
      right. split; [right; reflexivity|]. auto.
Qed.

(** X17. When [main] returns, the final [best_loss] is at most the one it
    started from: 1.0, or the one of the checkpoint it loaded. *)
Theorem main_best_loss_never_increases {Params : Type} (args : arguments)
    (tr : trainer Params) (p p' : Params) (b' : R)
    (loader_training loader_test : list batch)
    (fs fs' : filesystem (checkpoint_dict Params)) :
  main args tr p loader_training loader_test fs = Done (p', b', fs') ->
  b' <= (if String.eqb (checkpoint args) "" then 1.0
         else match fs (checkpoint args) with
              | Some ck => ck_best_loss ck
              | None => 1.0
              end).
Proof.
  intros H. apply main_done in H.
  destruct H as (_ & start & p0 & b0 & fs0 & H & Hinit).
  assert (Hb : b' <= b0).
  { apply (for_epochs_inv (fun st => snd (fst st) <= b0) _ _) in H.
    - exact H.
    - intros [[p1 b1] fs1] e [[p2 b2] fs2] Hi Hs. cbn [fst snd] in *.
      apply epoch_body_done in Hs.
      destruct Hs as (_ & _ & [(-> & _) | (sl & _ & -> & _)]);
        [exact Hi|].
      eapply Rle_trans; [apply Rmin_r | exact Hi].
    - cbn [fst snd]. lra. }
  destruct Hinit as [(Hne & Hf & _) | ([He | Hf] & _ & _ & -> & _)].
  - apply String.eqb_neq in Hne. rewrite Hne, Hf. exact Hb.
  - apply String.eqb_eq in He. rewrite He. exact Hb.
  - rewrite Hf. destruct (String.eqb (checkpoint args) ""); exact Hb.
Qed.

(** X18. With an empty checkpoint name, a run of [main] that returns has
    left the file system as it found it. *)
Theorem main_without_checkpoint_writes_nothing {Params : Type}
    (args : arguments) (tr : trainer Params) (p p' : Params) (b' : R)
    (loader_training loader_test : list batch)
    (fs fs' : filesystem (checkpoint_dict Params)) :
  checkpoint args = ""%string ->
  main args tr p loader_training loader_test fs = Done (p', b', fs') ->
  fs' = fs.
Proof.
  intros He H. apply main_done in H.
  destruct H as (_ & start & p0 & b0 & fs0 & H & Hinit).
  assert (H0 : fs0 = fs).
  { destruct Hinit as [(Hne & _) | (_ & _ & _ & _ & Hs)]; [contradiction|].
    rewrite He, save_checkpoint_empty in Hs. congruence. }
  subst fs0.
  apply (for_epochs_inv (fun st => snd st = fs) _ _) in H.
  - exact H.
  - intros [[p1 b1] fs1] e [[p2 b2] fs2] Hi Hs. cbn [snd] in *.
    apply epoch_body_done in Hs.
    destruct Hs as (_ & _ & [(_ & -> & _) | (sl & _ & _ & Hs)]);
      [exact Hi|].
    rewrite He, save_checkpoint_empty in Hs. congruence.
  - reflexivity.
Qed.

(** X19. When a run of [main] with a named checkpoint has at least one
    epoch to do and returns, the checkpoint file holds the number of
    epochs, the trained state and the final [best_loss]; running [main]
    again on that file system, from any initial state, loads them, trains
    nothing and leaves everything as it is. *)
Theorem main_completed_run_resumes {Params : Type} (args : arguments)
    (tr : trainer Params) (p p' : Params) (b' : R)
    (loader_training loader_test : list batch)
    (fs fs' : filesystem (checkpoint_dict Params)) :
  main args tr p loader_training loader_test fs = Done (p', b', fs') ->
  checkpoint args <> ""%string ->
  (match fs (checkpoint args) with
   | Some ck => ck_epoch ck
   | None => start_epoch args
   end < epochs args)%Z ->
  fs' (checkpoint args) = Some (mkCheckpoint (epochs args) p' b') /\
  forall p0,
    main args tr p0 loader_training loader_test fs' = Done (p', b', fs').
Proof.
  intros H Hne Hlt. apply main_done in H.
  destruct H as (Eh & start & p0 & b0 & fs0 & H & Hinit).
  assert (Hs : (start < epochs args)%Z).
  { destruct Hinit as [(_ & Hf & _) | ([He | Hf] & -> & _)].
    - rewrite Hf in Hlt. exact Hlt.
    - contradiction.
    - rewrite Hf in Hlt. exact Hlt. }
  rewrite (range_last _ _ Hs) in H. apply for_epochs_app in H.
  destruct H as ([[p1 b1] fs1] & _ & H). cbn [for_epochs] in H.
  destruct (epoch_body args tr loader_training loader_test (p1, b1, fs1)
              (epochs args - 1)) as [[[p2 b2] fs2]|e] eqn:E; [|discriminate].
  injection H as -> -> ->.
  apply epoch_body_done in E.
  destruct E as (_ & _ & [(_ & _ & Hc) | (sl & _ & Hb & Hsave)]); [lia|].
  replace (epochs args - 1 + 1)%Z with (epochs args) in Hsave by lia.
  rewrite <- Hb in Hsave.
  apply save_checkpoint_done in Hsave; [|exact Hne].
  destruct Hsave as (Hf & _). split; [exact Hf|].
  intros p3. unfold main. cbv zeta. rewrite Eh, Z.eqb_refl. cbn [negb].
  apply String.eqb_neq in Hne. rewrite Hne. unfold isfile. rewrite Hf.
  cbn [negb andb ck_epoch ck_state ck_best_loss].
  rewrite range_empty by lia. reflexivity.
Qed.



(** The epochs run to the end when the loops return, the print frequency
    is not 0 and the checkpoint is not named "model_best.pth.tar". *)
Lemma epochs_progress {Params : Type} (args : arguments)
    (tr : trainer Params) (loader_training loader_test : list batch) :
  print_freq args <> 0%Z ->
  checkpoint args <> "model_best.pth.tar"%string ->
  (forall p, exists r, train_one_epoch tr p loader_training = Ok r) ->
  (forall p, exists v, evaluate tr p loader_test = Ok v) ->
  forall l st, exists st',
    for_epochs (epoch_body args tr loader_training loader_test) st l
      = Done st'.
Proof.
  intros Hp Hnb Ht He. induction l as [|e l IH]; intros st.
  - exists st. reflexivity.
  - assert (Hstep : exists st1,
              epoch_body args tr loader_training loader_test st e
                = Done st1).
    { destruct st as [[p b] fs]. unfold epoch_body.
      destruct (Ht p) as ([[p1 al] ag] & ->).
      apply Z.eqb_neq in Hp. rewrite Hp.
      destruct (((e + 1) mod print_freq args =? 0)%Z
                || (e + 1 =? epochs args)%Z); [|eexists; reflexivity].
      destruct (He p1) as (sl & ->).
      destruct (String.eqb_spec (checkpoint args) "") as [E|E].
      - rewrite E, save_checkpoint_empty. eexists. reflexivity.
      - destruct (save_checkpoint_not_best
                    (mkCheckpoint (e + 1) p1 (Rmin sl b)) _ fs E)
          as (fs3 & _ & Es & Hf & _).
        rewrite Es. destruct (Rlt_dec sl b); [|eexists; reflexivity].
        unfold copyfile. rewrite Hf.
        apply String.eqb_neq in Hnb. rewrite Hnb. eexists. reflexivity. }
    destruct Hstep as (st1 & E). destruct (IH st1) as (st' & E').
    exists st'. cbn [for_epochs]. rewrite E. exact E'.
Qed.


(** ** [count_parameters] *)


(** ** The further properties on concrete inputs *)

Lemma log_sum_exp_exponents_bounded_witness :
  exists m2 d,
    max_last true x_example = Ok m2 /\
    sub x_example m2 = Ok d /\
    size d = size x_example /\
    Forall (fun v => v <= 0) (data d) /\
    length (data (sum_last (texp d))) = numel (front (size x_example)) /\
    Forall (fun s => 1 <= s <= INR (last_dim (size x_example)))
      (data (sum_last (texp d))).
Proof.
  apply (log_sum_exp_exponents_bounded x_example).
  - reflexivity.
  - unfold last_dim. simpl. lia.
Defined.

Lemma log_sum_exp_between_max_witness :
  exists m l,
    max_last false x_example = Ok m /\
    log_sum_exp x_example = Ok l /\
    size l = front (size x_example) /\
    Forall2
      (fun mv lv => mv <= lv <= mv + ln (INR (last_dim (size x_example))))
      (data m) (data l).
Proof.
  apply (log_sum_exp_between_max x_example).
  - reflexivity.
  - unfold last_dim. simpl. lia.
Defined.

Lemma log_sum_exp_shift_witness :
  exists l,
    log_sum_exp x_example = Ok l /\
    log_sum_exp (tmap (fun v => v + 7) x_example)
      = Ok (tmap (fun v => v + 7) l).
Proof.
  apply (log_sum_exp_shift 7 x_example).
  - reflexivity.
  - unfold last_dim. simpl. lia.
Defined.

Lemma LossFn_Mol_one_class_divides_by_zero_witness :
  LossFn_Mol y_hat_example y_example 1 None true = Raise ZeroDivisionError.
Proof.
  apply (LossFn_Mol_one_class_divides_by_zero y_hat_example y_example
           None true); reflexivity.
Defined.

(** A target of three values against two mixture components. *)
Definition y_three : tensor := mkTensor [3]%nat [0; 0; 0].

Lemma LossFn_Mol_target_not_broadcastable_witness :
  LossFn_Mol y_hat_example y_three 256 None true = Raise RuntimeError.
Proof.
  apply (LossFn_Mol_target_not_broadcastable y_hat_example y_three 256
           None true); reflexivity.
Defined.

(** A rank-3 tensor with an empty last axis. *)
Definition y_hat_empty : tensor := mkTensor [1; 1; 0]%nat [].

Lemma LossFn_Mol_no_component_raises_witness :
  exists e,
    LossFn_Mol y_hat_empty y_example 256 None true = Raise e /\
    e <> AssertionError.
Proof.
  apply (LossFn_Mol_no_component_raises y_hat_empty y_example 256 None
           true); try reflexivity.
  lia.
Defined.

Lemma LossFn_Mol_cdf_delta_probability_witness :
  exists L,
    LossFn_Mol_locals y_hat_example y_example 256 None = Ok L /\
    forall i, (i < numel (mixture_size y_hat_example))%nat ->
      0 < elt (cdf_delta L) i < 1.
Proof.
  apply (LossFn_Mol_cdf_delta_probability y_hat_example y_example 256 None).
  exact example_input_valid.
Defined.

Lemma LossFn_Mol_edge_log_probs_nonpositive_witness :
  exists L,
    LossFn_Mol_locals y_hat_example y_example 256 None = Ok L /\
    forall i, (i < numel (mixture_size y_hat_example))%nat ->
      elt (log_cdf_plus L) i <= 0 /\ elt (log_one_minus_cdf_min L) i < 0.
Proof.
  apply (LossFn_Mol_edge_log_probs_nonpositive y_hat_example y_example 256
           None).
  exact example_input_valid.
Defined.

Lemma LossFn_Mol_selection_witness :
  exists L,
    LossFn_Mol_locals y_hat_example y_example 256 None = Ok L /\
    forall i, (i < numel (mixture_size y_hat_example))%nat ->
      let t := elt (y_expanded L) i in
      (t < -0.999 -> elt (log_probs L) i = elt (log_cdf_plus L) i) /\
      (0.999 < t ->
       elt (log_probs L) i = elt (log_one_minus_cdf_min L) i) /\
      (-0.999 <= t <= 0.999 -> 1e-5 < elt (cdf_delta L) i ->
       elt (log_probs L) i = ln (elt (cdf_delta L) i)) /\
      (-0.999 <= t <= 0.999 -> ~ 1e-5 < elt (cdf_delta L) i ->
       elt (log_probs L) i = elt (log_pdf_mid L) i - tmp).
Proof.
  apply (LossFn_Mol_selection y_hat_example y_example 256 None).
  exact example_input_valid.
Defined.

Lemma LossFn_Mol_single_component_value_witness :
  exists L t,
    LossFn_Mol_locals y_hat_single y_single 65536 None = Ok L /\
    LossFn_Mol y_hat_single y_single 65536 None false = Ok t /\
    data t = map Ropp (data (log_probs L)).
Proof.
  apply (LossFn_Mol_single_component_value y_hat_single y_single 65536
           None).
  - exact single_input_valid.
  - reflexivity.
Defined.

Lemma LossFn_Mol_log_scale_floor_witness :
  exists t,
    LossFn_Mol y_hat_example y_example 256 (Some (-1)) true = Ok t /\
    LossFn_Mol (floor_log_scales (-1.5) y_hat_example) y_example 256
      (Some (-1)) true = Ok t.
Proof.
  apply (LossFn_Mol_log_scale_floor (-1.5) y_hat_example y_example 256
           (Some (-1)) true).
  - exact example_input_valid.
  - lra.
Defined.


Lemma evaluate_is_mean_witness :
  evaluate (trainer_example "MOL") tt [batch_example; batch_example]
  = Ok (row_sum [row_sum (data x_example) / INR (numel (size x_example));
                 row_sum (data x_example) / INR (numel (size x_example))]
        / INR 2).
Proof.
  apply (evaluate_is_mean (trainer_example "MOL") tt
           [batch_example; batch_example]).
  - discriminate.
  - repeat constructor.
Defined.

Lemma train_example_returns (p : unit) :
  exists al,
    train_one_epoch (trainer_example "MOL") p [batch_example]
      = Ok (tt, al, None).
Proof.
  destruct p. unfold train_one_epoch, batch_example. cbn [for_each].
  unfold train_batch, trainer_example.
  cbn [forward mode criterion backward clip_norm clip_grad_norm step bind
       String.eqb Ascii.eqb Bool.eqb fst snd item mean data].
  destruct (Rlt_dec 0 0) as [H|_]; [lra|].
  cbn [bind fst snd length div_len dd_mem dd_add dd_set dd_get
       String.eqb Ascii.eqb Bool.eqb orb].
  eexists. reflexivity.
Qed.

Lemma evaluate_example_returns (p : unit) :
  exists v, evaluate (trainer_example "MOL") p [batch_example] = Ok v.
Proof. eexists. reflexivity. Qed.

Lemma train_one_epoch_reports_gradient_witness :
  exists al,
    train_one_epoch (trainer_example "MOL") tt [batch_example]
      = Ok (tt, al, None) /\
    (@None R <> None <-> 0 < clip_norm (trainer_example "MOL")).
Proof.
  destruct (train_example_returns tt) as (al & E).
  exists al. split; [exact E|].
  apply (train_one_epoch_reports_gradient (trainer_example "MOL") tt tt
           [batch_example] al None E).
Defined.

(** Two epochs on one batch, evaluated after each, from an empty file
    system; the same without a checkpoint name, and with a print frequency
    of 0. *)
Definition args_example : arguments :=
  mkArguments "checkpoint.pth.par" 0 2 1 [5; 5; 11]%Z 275.
Definition args_unnamed : arguments :=
  mkArguments "" 0 2 1 [5; 5; 11]%Z 275.
Definition fs_empty : filesystem (checkpoint_dict unit) := fun _ => None.

Lemma train_example_ok (p : unit) :
  exists r, train_one_epoch (trainer_example "MOL") p [batch_example] = Ok r.
Proof. destruct (train_example_returns p) as (al & E). eauto. Qed.

Lemma example_run (args : arguments) (fs0 : filesystem (checkpoint_dict unit)) :
  fold_left Z.mul (upsample_scales args) 1%Z = hop_length args ->
  print_freq args <> 0%Z ->
  checkpoint args <> "model_best.pth.tar"%string ->
  save_checkpoint (mkCheckpoint (start_epoch args) tt 1.0) false
    (checkpoint args) fs_empty = (None, fs0) ->
  exists p' b' fs',
    main args (trainer_example "MOL") tt [batch_example] [batch_example]
      fs_empty = Done (p', b', fs').
Proof.
  intros Eh Hp Hnb Hs.
  destruct (epochs_progress args (trainer_example "MOL") [batch_example]
              [batch_example] Hp Hnb train_example_ok
              evaluate_example_returns
              (range (start_epoch args) (epochs args)) (tt, 1.0, fs0))
    as ([[p' b'] fs'] & E).
  exists p', b', fs'. unfold main. cbv zeta. rewrite Eh, Z.eqb_refl.
  cbn [negb]. unfold isfile, fs_empty at 1. rewrite andb_false_r.
  rewrite Hs. exact E.
Qed.

Lemma args_example_run :
  exists p' b' fs',
    main args_example (trainer_example "MOL") tt [batch_example]
      [batch_example] fs_empty = Done (p', b', fs').
Proof.
  destruct (save_checkpoint_not_best (mkCheckpoint 0%Z tt 1.0)
              "checkpoint.pth.par" fs_empty) as (fs0 & E & _);
    [discriminate|].
  apply (example_run args_example fs0); try discriminate;
    [reflexivity | exact E].
Qed.

Lemma args_unnamed_run :
  exists p' b' fs',
    main args_unnamed (trainer_example "MOL") tt [batch_example]
      [batch_example] fs_empty = Done (p', b', fs').
Proof.
  apply (example_run args_unnamed fs_empty); try discriminate; reflexivity.
Qed.

Lemma main_best_loss_never_increases_witness :
  exists p' b' fs',
    main args_example (trainer_example "MOL") tt [batch_example]
      [batch_example] fs_empty = Done (p', b', fs') /\
    b' <= 1.0.
Proof.
  destruct args_example_run as (p' & b' & fs' & E).
  exists p', b', fs'. split; [exact E|].
  exact (main_best_loss_never_increases args_example
           (trainer_example "MOL") tt p' b' [batch_example] [batch_example]
           fs_empty fs' E).
Defined.

Lemma main_without_checkpoint_writes_nothing_witness :
  exists p' b' fs',
    main args_unnamed (trainer_example "MOL") tt [batch_example]
      [batch_example] fs_empty = Done (p', b', fs') /\
    fs' = fs_empty.
Proof.
  destruct args_unnamed_run as (p' & b' & fs' & E).
  exists p', b', fs'. split; [exact E|].
  apply (main_without_checkpoint_writes_nothing args_unnamed
           (trainer_example "MOL") tt p' b' [batch_example] [batch_example]
           fs_empty fs'); [reflexivity | exact E].
Defined.

Lemma main_completed_run_resumes_witness :
  exists p' b' fs',
    main args_example (trainer_example "MOL") tt [batch_example]
      [batch_example] fs_empty = Done (p', b', fs') /\
    fs' "checkpoint.pth.par"%string = Some (mkCheckpoint 2 p' b') /\
    forall p0,
      main args_example (trainer_example "MOL") p0 [batch_example]
        [batch_example] fs' = Done (p', b', fs').
Proof.
  destruct args_example_run as (p' & b' & fs' & E).
  exists p', b', fs'. split; [exact E|].
  apply (main_completed_run_resumes args_example (trainer_example "MOL")
           tt p' b' [batch_example] [batch_example] fs_empty fs' E).
  - discriminate.
  - reflexivity.
Defined.




